(** * tabulate-rdf: the table-model core of the ontology viewer

    A shallow embedding of [docs/app/core.js] (the data layer that
    [docs/app/ui-helpers.js] imports) together with the properties its
    specification states about it.

    Conventions of the embedding.

    - A JavaScript string is a Rocq [string]; every character stands for one
      UTF-16 code unit below 256 (ASCII and the Latin-1 supplement).  The
      string builtins ([toLowerCase], [trim], [endsWith], [includes],
      [split], [replace]) are written out on that range.
    - [null]/[undefined] results and arguments are [option]s.
    - An RDF/JS term is a value of the tagged union [Term]; its constructors
      carry the names of the N3 [DataFactory] functions that build them.
    - An N3 [Store] is the list of quads that [getQuads(null,null,null,null)]
      enumerates.
    - A row of the table ([Record<string,string>]) is a finite map from
      field names to strings.
    - [logEvent]/[logError] only write to the console and are left out; the
      [try]/[catch] wrappers only re-throw, and every function below is
      total. *)

From Stdlib Require Import ZArith Ascii String List Sorted Permutation.
From stdpp Require Import base option list gmap strings.

Local Open Scope string_scope.
Local Open Scope list_scope.

(** ** String builtins *)

Module JsString.

Definition code (c : ascii) : N := N_of_ascii c.

Definition in_range (lo hi : N) (c : ascii) : bool :=
  ((lo <=? code c) && (code c <=? hi))%N.

(** [String.prototype.toLowerCase] on one code unit: A-Z, and the Latin-1
    capitals U+00C0..U+00DE except the multiplication sign U+00D7. *)
Definition lower_char (c : ascii) : ascii :=
  if in_range 65 90 c || in_range 192 214 c || in_range 216 222 c
  then ascii_of_N (code c + 32)
  else c.

Fixpoint toLowerCase (s : string) : string :=
  match s with
  | EmptyString => EmptyString
  | String c s' => String (lower_char c) (toLowerCase s')
  end.

(** [toUpperCase] on one code unit.  The three Latin-1 letters whose
    upper-case form is not a single code unit below 256 (U+00B5, U+00DF,
    U+00FF) are left as they are; [toPascalCase], the only caller, applies
    it to the characters of [A-Za-z0-9] only. *)
Definition upper_char (c : ascii) : ascii :=
  if in_range 97 122 c || in_range 224 246 c || in_range 248 254 c
  then ascii_of_N (code c - 32)
  else c.

(** [/[A-Za-z0-9]/] *)
Definition is_alnum (c : ascii) : bool :=
  in_range 65 90 c || in_range 97 122 c || in_range 48 57 c.

(** White space as [trim] and [\s] see it: TAB, LF, VT, FF, CR, SP, NBSP. *)
Definition is_space (c : ascii) : bool :=
  in_range 9 13 c || (code c =? 32)%N || (code c =? 160)%N.

Fixpoint trimStart (s : string) : string :=
  match s with
  | EmptyString => EmptyString
  | String c s' => if is_space c then trimStart s' else s
  end.

Fixpoint trimEnd (s : string) : string :=
  match s with
  | EmptyString => EmptyString
  | String c s' =>
      let t := trimEnd s' in
      if is_space c && String.eqb t "" then "" else String c t
  end.

Definition trim (s : string) : string := trimEnd (trimStart s).

(** [s.endsWith(suffix)] *)
Definition endsWith (s suffix : string) : bool :=
  let n := String.length s in
  let m := String.length suffix in
  (m <=? n)%nat && String.eqb (substring (n - m) m s) suffix.

(** [s.includes(q)] *)
Fixpoint includes (s q : string) : bool :=
  String.prefix q s ||
  match s with
  | EmptyString => false
  | String _ s' => includes s' q
  end.

(** [s.replace(/[^A-Za-z0-9]+/g, ' ')]: every maximal run of characters
    outside [A-Za-z0-9] becomes one space.  [in_run] tells that the
    previous character already belonged to the current run. *)
Fixpoint replace_non_alnum_runs (in_run : bool) (s : string) : string :=
  match s with
  | EmptyString => EmptyString
  | String c s' =>
      if is_alnum c then String c (replace_non_alnum_runs false s')
      else if in_run then replace_non_alnum_runs true s'
      else String " " (replace_non_alnum_runs true s')
  end.

(** [s.split(/\s+/)]: the pieces between maximal runs of white space; a
    run at either end leaves an empty piece there, and the empty string
    splits into one empty piece.  [cur] is the piece being read. *)
Fixpoint split_space_runs (in_run : bool) (cur : string) (s : string)
  : list string :=
  match s with
  | EmptyString => [cur]
  | String c s' =>
      if is_space c then
        if in_run then split_space_runs true "" s'
        else cur :: split_space_runs true "" s'
      else split_space_runs false (cur ++ String c "") s'
  end.

(** [p.charAt(0).toUpperCase() + p.slice(1)] *)
Definition capitalize (p : string) : string :=
  match p with
  | EmptyString => EmptyString
  | String c rest => String (upper_char c) rest
  end.

(** [xs.join(sep)] *)
Definition join (sep : string) (xs : list string) : string :=
  String.concat sep xs.

End JsString.

Import JsString.

(** ** RDF/JS terms, quads and the store *)

Inductive Term : Type :=
  | namedNode (iri : string)
  | blankNode (label : string)
  | literal (lexical : string) (lang : string)
  | variable (name : string)
  | defaultGraph.

Global Instance Term_eq_dec : EqDecision Term.
Proof. solve_decision. Defined.

Definition termType (t : Term) : string :=
  match t with
  | namedNode _ => "NamedNode"
  | blankNode _ => "BlankNode"
  | literal _ _ => "Literal"
  | variable _ => "Variable"
  | defaultGraph => "DefaultGraph"
  end.

Definition value (t : Term) : string :=
  match t with
  | namedNode v | blankNode v | literal v _ | variable v => v
  | defaultGraph => ""
  end.

(** [term.language]: the language tag of a literal, [''] when it has none;
    other terms have no such property, which is as falsy as ['']. *)
Definition language (t : Term) : string :=
  match t with
  | literal _ l => l
  | _ => ""
  end.

Record Quad : Type := mkQuad {
  subject : Term;
  predicate : Term;
  object : Term;
  graph : Term
}.

Global Instance Quad_eq_dec : EqDecision Quad.
Proof. solve_decision. Defined.

(** [DataFactory.quad(s, p, o)]: a triple of the default graph. *)
Definition quad (s p o : Term) : Quad := mkQuad s p o defaultGraph.

Definition Store : Type := list Quad.

Definition term_matches (pat : option Term) (t : Term) : bool :=
  match pat with
  | None => true
  | Some u => bool_decide (u = t)
  end.

(** [store.getQuads(s, p, o, g)], [None] being the wildcard [null]. *)
Definition getQuads (store : Store) (s p o g : option Term) : list Quad :=
  List.filter
    (fun q => term_matches s (subject q) && term_matches p (predicate q)
              && term_matches o (object q) && term_matches g (graph q))
    store.

(** ** Namespaces *)

Module NS.
Definition rdf := "http://www.w3.org/1999/02/22-rdf-syntax-ns#".
Definition rdfs := "http://www.w3.org/2000/01/rdf-schema#".
Definition owl := "http://www.w3.org/2002/07/owl#".
Definition dc := "http://purl.org/dc/elements/1.1/".
Definition dcterms := "http://purl.org/dc/terms/".
Definition skos := "http://www.w3.org/2004/02/skos/core#".
Definition obo := "http://purl.obolibrary.org/obo/".
Definition cco := "http://www.ontologyrepository.com/CommonCoreOntologies/".
Definition cco2 := "https://www.commoncoreontologies.org/".
End NS.

(** ** Format detection *)

Definition detectRdfFormatFromFilename (filename : option string) : string :=
  let lower := toLowerCase (default "" filename) in
  if endsWith lower ".ttl" || endsWith lower ".n3" then "text/turtle"
  else if endsWith lower ".nt" then "application/n-triples"
  else if endsWith lower ".nq" then "application/n-quads"
  else if endsWith lower ".trig" then "application/trig"
  else "text/turtle".

Definition isBlankNode (term : option Term) : bool :=
  match term with
  | None => false
  | Some t => String.eqb (termType t) "BlankNode"
  end.

(** ** The ontology subject *)

(** The predicate of [all.find(...)]: the quad states [rdf:type
    owl:Ontology], both as named nodes. *)
Definition is_rdf_type_ontology (q : Quad) : bool :=
  String.eqb (termType (predicate q)) "NamedNode"
  && String.eqb (value (predicate q)) (NS.rdf +:+ "type")
  && String.eqb (termType (object q)) "NamedNode"
  && String.eqb (value (object q)) (NS.owl +:+ "Ontology").

Definition getOntologySubjectIri (store : Store) : option string :=
  let all := getQuads store None None None None in
  match List.find is_rdf_type_ontology all with
  | None => None
  | Some candidate => Some (value (subject candidate))
  end.

(** ** Literal selection *)

(** A string in a condition: [''] is falsy, every other string truthy. *)
Definition truthy (s : string) : bool := negb (String.eqb s "").

(** A missing array ([null]/[undefined]) takes the same early return as the
    empty one; both are the empty list here. *)
Definition pickBestLiteral (literals : list Term) : option Term :=
  match literals with
  | [] => None
  | first :: _ =>
      let withLang := List.filter (fun l => truthy (language l)) literals in
      match List.find (fun l => String.eqb (toLowerCase (language l)) "en")
                      withLang with
      | Some en => Some en
      | None =>
          match List.find (fun l => negb (truthy (language l))) literals with
          | Some noLang => Some noLang
          | None => Some first
          end
      end
  end.

(** ** Export file names *)

Definition pascal_parts (name : string) : list string :=
  split_space_runs false "" (trim (replace_non_alnum_runs false name)).

Definition toPascalCase (name : option string) : string :=
  match name with
  | None => "Ontology"
  | Some s =>
      if negb (truthy s) then "Ontology"
      else
        let parts := pascal_parts s in
        if (List.length parts =? 0)%nat then "Ontology"
        else join "" (List.map capitalize parts)
  end.


(** ** Graph accessors *)

Definition getQuadsForSubject (store : Store) (subjectIri : string)
  : list Quad :=
  let all := getQuads store None None None None in
  List.filter
    (fun q => String.eqb (termType (subject q)) "NamedNode"
              && String.eqb (value (subject q)) subjectIri)
    all.

(** The literal objects of the subject's quads whose predicate is [p]: the
    [filter(...).map(q => q.object)] of the preferred-literal loop. *)
Definition literal_objects (subjectQuads : list Quad) (p : string)
  : list Term :=
  List.map object
    (List.filter
       (fun q => String.eqb (termType (predicate q)) "NamedNode"
                 && String.eqb (value (predicate q)) p
                 && String.eqb (termType (object q)) "Literal")
       subjectQuads).

(** The body of [for (const p of predicateIris)]; [best] is a term object,
    so [if (best)] only tests it against [null]. *)
Fixpoint preferred_literal_loop (subjectQuads : list Quad)
  (predicateIris : list string) : option string :=
  match predicateIris with
  | [] => None
  | p :: rest =>
      match pickBestLiteral (literal_objects subjectQuads p) with
      | Some best => Some (value best)
      | None => preferred_literal_loop subjectQuads rest
      end
  end.

Definition getPreferredLiteralForPredicates (store : Store)
  (subjectIri : string) (predicateIris : list string) : option string :=
  preferred_literal_loop (getQuadsForSubject store subjectIri) predicateIris.

Definition iri_objects (subjectQuads : list Quad) (p : string) : list Term :=
  List.map object
    (List.filter
       (fun q => String.eqb (termType (predicate q)) "NamedNode"
                 && String.eqb (value (predicate q)) p
                 && String.eqb (termType (object q)) "NamedNode")
       subjectQuads).

Fixpoint preferred_iri_loop (subjectQuads : list Quad)
  (predicateIris : list string) : option string :=
  match predicateIris with
  | [] => None
  | p :: rest =>
      match List.head (iri_objects subjectQuads p) with
      | Some iriObj => Some (value iriObj)
      | None => preferred_iri_loop subjectQuads rest
      end
  end.

Definition getPreferredIriForPredicates (store : Store)
  (subjectIri : string) (predicateIris : list string) : option string :=
  preferred_iri_loop (getQuadsForSubject store subjectIri) predicateIris.

(** [predicateIris.includes(x)] *)
Definition array_includes (xs : list string) (x : string) : bool :=
  List.existsb (String.eqb x) xs.

(** A JavaScript [Set] of strings, as the list of its members in insertion
    order; [Array.from(values)] is that list. *)
Definition set_add (values : list string) (v : string) : list string :=
  if array_includes values v then values else values ++ [v].

Definition getLiteralArrayForPredicates (store : Store)
  (subjectIri : string) (predicateIris : list string) : list string :=
  List.fold_left
    (fun values q =>
       if String.eqb (termType (predicate q)) "NamedNode"
          && array_includes predicateIris (value (predicate q))
          && String.eqb (termType (object q)) "Literal"
       then set_add values (value (object q))
       else values)
    (getQuadsForSubject store subjectIri) [].

Definition getIriArrayForPredicates (store : Store)
  (subjectIri : string) (predicateIris : list string) : list string :=
  List.fold_left
    (fun values q =>
       if String.eqb (termType (predicate q)) "NamedNode"
          && array_includes predicateIris (value (predicate q))
          && String.eqb (termType (object q)) "NamedNode"
          && negb (isBlankNode (Some (object q)))
       then set_add values (value (object q))
       else values)
    (getQuadsForSubject store subjectIri) [].

Definition getAnyArrayForPredicates (store : Store)
  (subjectIri : string) (predicateIris : list string) : list string :=
  List.fold_left
    (fun values q =>
       if String.eqb (termType (predicate q)) "NamedNode"
          && array_includes predicateIris (value (predicate q))
       then
         if String.eqb (termType (object q)) "Literal"
            || String.eqb (termType (object q)) "NamedNode"
         then set_add values (value (object q))
         else values
       else values)
    (getQuadsForSubject store subjectIri) [].

(** ** Ontology metadata *)

Record OntologyMetadata : Type := mkMeta {
  ontologyIri : option string;
  ontologyName : option string;
  versionIri : option string;
  versionInfo : option string;
  description : option string;
  license : option string;
  rightsHolder : option string
}.

Definition extractOntologyMetadata (store : Store) : OntologyMetadata :=
  match getOntologySubjectIri store with
  | None => mkMeta None None None None None None None
  | Some iri =>
      if negb (truthy iri) then mkMeta None None None None None None None
      else
        {| ontologyIri := Some iri;
           ontologyName := getPreferredLiteralForPredicates store iri
             [NS.rdfs +:+ "label"; NS.dcterms +:+ "title"; NS.dc +:+ "title"];
           versionIri := getPreferredIriForPredicates store iri
             [NS.owl +:+ "versionIRI"; NS.dcterms +:+ "hasVersion"];
           versionInfo := getPreferredLiteralForPredicates store iri
             [NS.owl +:+ "versionInfo"; NS.dcterms +:+ "hasVersion"];
           description := getPreferredLiteralForPredicates store iri
             [NS.skos +:+ "definition"; NS.dcterms +:+ "description";
              NS.dc +:+ "description"];
           license := getPreferredIriForPredicates store iri
             [NS.dcterms +:+ "license"; NS.dcterms +:+ "rights";
              NS.dc +:+ "rights"; NS.dcterms +:+ "accessRights"];
           rightsHolder := getPreferredLiteralForPredicates store iri
             [NS.dcterms +:+ "rightsHolder"] |}
  end.

(** ** Element classification *)

Definition interestingTypes : list string :=
  [NS.owl +:+ "Class"; NS.owl +:+ "NamedIndividual"; NS.owl +:+ "ObjectProperty";
   NS.owl +:+ "DatatypeProperty"; NS.owl +:+ "AnnotationProperty"].

Definition shouldIncludeElementSubject (store : Store)
  (subject : option Term) : bool :=
  match subject with
  | None => false
  | Some subj =>
      if negb (String.eqb (termType subj) "NamedNode") then false
      else
        let quadsForSubject := getQuads store (Some subj) None None None in
        let types :=
          List.map (fun q => value (object q))
            (List.filter
               (fun q => String.eqb (termType (predicate q)) "NamedNode"
                         && String.eqb (value (predicate q)) (NS.rdf +:+ "type")
                         && String.eqb (termType (object q)) "NamedNode")
               quadsForSubject) in
        List.existsb (fun t => array_includes interestingTypes t) types
  end.

(** ** The table model *)

(** A row, [Record<string, string>]. *)
Abbreviation Row := (gmap string string).

Record TableModel : Type := mkModel {
  headers : list string;
  keys : list string;
  rows : list Row
}.

(** [r[key] ?? ''] *)
Definition cell (r : Row) (key : string) : string := default "" (r !! key).

(** [x || ''] for a [string|null] *)
Definition or_empty (x : option string) : string :=
  match x with
  | Some s => if truthy s then s else ""
  | None => ""
  end.

(** An object literal: the properties are defined from left to right. *)
Definition object_of (props : list (string * string)) : Row :=
  List.fold_left (fun obj kv => <[kv.1 := kv.2]> obj) props ∅.

(** [map.set(k, v)] on a [Map], kept as the list of its entries in
    insertion order: an existing key keeps its place and takes the new
    value, a new key goes to the end. *)
Fixpoint map_set {V : Type} (m : list (string * V)) (k : string) (v : V)
  : list (string * V) :=
  match m with
  | [] => [(k, v)]
  | (k', v') :: m' =>
      if String.eqb k' k then (k, v) :: m' else (k', v') :: map_set m' k v
  end.

(** [xs.filter((_, i) => f(i))], the index counting from [i]. *)
Fixpoint filter_by_index {A : Type} (f : nat -> bool) (i : nat) (xs : list A)
  : list A :=
  match xs with
  | [] => []
  | x :: xs' =>
      if f i then x :: filter_by_index f (S i) xs'
      else filter_by_index f (S i) xs'
  end.

Definition allHeaders : list string :=
  ["iri"; "label"; "type"; "definition"; "preferred label";
   "alternative label"; "acronym"; "rdfs:subClassOf"; "rdfs:subPropertyOf";
   "definition source"; "is curated in"].

Definition allKeys : list string :=
  ["iri"; "label"; "type"; "definition"; "preferredLabel";
   "alternativeLabel"; "acronym"; "subClassOf"; "subPropertyOf";
   "definitionSource"; "isCuratedIn"].

(** The subjects that become rows: the named-node subjects of the store in
    order of first appearance, filtered by the classifier. *)
Definition elementSubjects (store : Store) : list Term :=
  let allQuads := getQuads store None None None None in
  let subjectTermMap :=
    List.fold_left
      (fun m q =>
         if negb (isBlankNode (Some (subject q)))
            && String.eqb (termType (subject q)) "NamedNode"
         then map_set m (value (subject q)) (subject q)
         else m)
      allQuads [] in
  List.filter (fun subj => shouldIncludeElementSubject store (Some subj))
    (List.map snd subjectTermMap).

(** The body of [for (const subj of elementSubjects)]. *)
Definition element_row (store : Store) (subj : Term) : Row :=
  let iri := value subj in
  let label := getPreferredLiteralForPredicates store iri
    [NS.rdfs +:+ "label"; NS.dcterms +:+ "title"; NS.dc +:+ "title"] in
  let typeArr := getIriArrayForPredicates store iri [NS.rdf +:+ "type"] in
  let definition := getPreferredLiteralForPredicates store iri
    [NS.skos +:+ "definition"; NS.obo +:+ "IAO_0000115";
     NS.cco +:+ "definition"] in
  let preferredLabel := getPreferredLiteralForPredicates store iri
    [NS.skos +:+ "prefLabel"; NS.obo +:+ "IAO_0000111"] in
  let alternativeLabelArr := getLiteralArrayForPredicates store iri
    [NS.skos +:+ "altLabel"; NS.obo +:+ "IAO_0000118";
     NS.cco +:+ "alternative_label"] in
  let acronymArr := getLiteralArrayForPredicates store iri
    [NS.cco +:+ "acronym"; NS.obo +:+ "IAO_0000606";
     NS.cco2 +:+ "ont00001753"] in
  let subClassOfArr := getIriArrayForPredicates store iri
    [NS.rdfs +:+ "subClassOf"] in
  let subPropertyOfArr := getIriArrayForPredicates store iri
    [NS.rdfs +:+ "subPropertyOf"] in
  let definitionSourceArr := getAnyArrayForPredicates store iri
    [NS.dcterms +:+ "bibliographicCitation"; NS.obo +:+ "IAO_0000119";
     NS.cco2 +:+ "ont00001754"; NS.cco +:+ "definition_source";
     NS.cco2 +:+ "ont00001745"; NS.cco +:+ "doctrinal_source"] in
  let isCuratedIn := getPreferredIriForPredicates store iri
    [NS.cco2 +:+ "ont00001760"; NS.rdfs +:+ "isDefinedBy"] in
  object_of
    [("iri", iri);
     ("label", or_empty label);
     ("type", join "; " typeArr);
     ("definition", or_empty definition);
     ("preferredLabel", or_empty preferredLabel);
     ("alternativeLabel", join "; " alternativeLabelArr);
     ("acronym", join "; " acronymArr);
     ("subClassOf", join "; " subClassOfArr);
     ("subPropertyOf", join "; " subPropertyOfArr);
     ("definitionSource", join "; " definitionSourceArr);
     ("isCuratedIn", or_empty isCuratedIn)].

(** [(r[key] ?? '').trim() !== ''] *)
Definition has_data (key : string) (r : Row) : bool :=
  negb (String.eqb (trim (cell r key)) "").

Definition keepFlags (rows : list Row) : list bool :=
  List.map
    (fun key => if String.eqb key "iri" then true
                else List.existsb (has_data key) rows)
    allKeys.

(** [keys.forEach(k => { obj[k] = r[k] ?? ''; })] on a fresh object. *)
Definition prune_row (keys : list string) (r : Row) : Row :=
  List.fold_left (fun obj k => <[k := cell r k]> obj) keys ∅.

Definition buildElementTableModel (store : Store) : TableModel :=
  let rows := List.map (element_row store) (elementSubjects store) in
  let keepFlags := keepFlags rows in
  let keep := fun i => default false (keepFlags !! i) in
  let headers := filter_by_index keep 0 allHeaders in
  let keys := filter_by_index keep 0 allKeys in
  let prunedRows := List.map (prune_row keys) rows in
  {| headers := headers; keys := keys; rows := prunedRows |}.

(** ** Filtering and sorting *)

(** [Object.values(row).some(v => String(v).toLowerCase().includes(q))] *)
Definition row_matches (q : string) (row : Row) : bool :=
  List.existsb (fun v => includes (toLowerCase v) q)
    (List.map snd (map_to_list row)).

(** [Array.prototype.sort] with a comparator.  The language requires the
    sort to be stable; with a consistent comparator that fixes the result,
    which we compute by stable insertion from the right: an element goes in
    front of the first later element it does not compare greater than. *)
Fixpoint sort_insert {A : Type} (cmp : A -> A -> Z) (x : A) (l : list A)
  : list A :=
  match l with
  | [] => [x]
  | y :: l' =>
      if (cmp x y <=? 0)%Z then x :: y :: l' else y :: sort_insert cmp x l'
  end.

Definition array_sort {A : Type} (cmp : A -> A -> Z) (l : list A) : list A :=
  List.fold_right (sort_insert cmp) [] l.

Section FilterSort.

(** [String.prototype.localeCompare] depends on the collation of the host
    locale; it is a parameter of the development. *)
Variable localeCompare : string -> string -> Z.

Definition row_comparator (key sortDirection : string) (a b : Row) : Z :=
  let va := cell a key in
  let vb := cell b key in
  let cmp := localeCompare va vb in
  if String.eqb sortDirection "asc" then cmp else (- cmp)%Z.

Definition filter_rows (model : TableModel) (query : option string)
  : list Row :=
  let q := toLowerCase (default "" query) in
  if truthy q then List.filter (row_matches q) (rows model)
  else rows model.

(** The key to sort by: [None] on each path of the code that returns
    [filtered] as it is. *)
Definition sort_key (model : TableModel) (sortIndex : option Z)
  : option string :=
  match sortIndex with
  | None => None
  | Some i =>
      if (i <? 0)%Z || (Z.of_nat (List.length (headers model)) <=? i)%Z
      then None
      else
        match keys model !! Z.to_nat i with
        | None => None
        | Some key => if truthy key then Some key else None
        end
  end.

(** [sortDirection] is the direction after the default ['asc'] of the
    parameter has been applied. *)
Definition filterAndSortRows (model : TableModel) (query : option string)
  (sortIndex : option Z) (sortDirection : string) : list Row :=
  let filtered := filter_rows model query in
  match sort_key model sortIndex with
  | None => filtered
  | Some key => array_sort (row_comparator key sortDirection) filtered
  end.

End FilterSort.

(** ** Filtering and sorting, with the arrays as objects of a heap

    [filterAndSortRows] above computes the rows that the function returns.
    Which array object holds them, and what happens to the arrays of the
    model, is only visible when arrays are references.  Here the model
    object and its three arrays live in a heap; [filter] and the spread
    [[...filtered]] allocate a new array, [sort] rewrites an array in
    place.  Row objects are never written to and stay values. *)

Module Mem.

Definition loc : Type := positive.

Inductive Obj : Type :=
  | ModelObj (headers keys rows : loc)
  | StringArray (items : list string)
  | RowArray (items : list Row).

Abbreviation Heap := (gmap loc Obj).

(** Computations on the heap; [None] when an object is not of the kind the
    operation expects, where the JavaScript throws a [TypeError]. *)
Definition M (A : Type) : Type := Heap -> option (A * Heap).

Definition ret {A : Type} (a : A) : M A := fun h => Some (a, h).

Definition bind {A B : Type} (m : M A) (k : A -> M B) : M B :=
  fun h => match m h with
           | Some (a, h') => k a h'
           | None => None
           end.

Notation "'let*' x ':=' m 'in' k" := (bind m (fun x => k))
  (at level 10, x name, m at level 100, k at level 200).

Definition alloc (o : Obj) : M loc :=
  fun h => let l := fresh (dom h) in Some (l, <[l := o]> h).

(** [model.headers], [model.keys], [model.rows] *)
Definition get_headers (l : loc) : M loc :=
  fun h => match h !! l with
           | Some (ModelObj hs _ _) => Some (hs, h)
           | _ => None
           end.

Definition get_keys (l : loc) : M loc :=
  fun h => match h !! l with
           | Some (ModelObj _ ks _) => Some (ks, h)
           | _ => None
           end.

Definition get_rows (l : loc) : M loc :=
  fun h => match h !! l with
           | Some (ModelObj _ _ rs) => Some (rs, h)
           | _ => None
           end.

Definition read_strings (l : loc) : M (list string) :=
  fun h => match h !! l with
           | Some (StringArray xs) => Some (xs, h)
           | _ => None
           end.

Definition read_rows (l : loc) : M (list Row) :=
  fun h => match h !! l with
           | Some (RowArray xs) => Some (xs, h)
           | _ => None
           end.

Definition write_rows (l : loc) (xs : list Row) : M unit :=
  fun h => match h !! l with
           | Some (RowArray _) => Some (tt, <[l := RowArray xs]> h)
           | _ => None
           end.

(** [arr.filter(f)]: a new array. *)
Definition array_filter (f : Row -> bool) (arr : loc) : M loc :=
  let* xs := read_rows arr in alloc (RowArray (List.filter f xs)).

(** [[...arr]]: a new array with the same elements. *)
Definition array_spread (arr : loc) : M loc :=
  let* xs := read_rows arr in alloc (RowArray xs).

(** [arr.sort(cmp)]: sorts [arr] in place and returns it. *)
Definition array_sort_in_place (cmp : Row -> Row -> Z) (arr : loc) : M loc :=
  let* xs := read_rows arr in
  let* _ := write_rows arr (array_sort cmp xs) in
  ret arr.

Section HeapFilterSort.

Variable localeCompare : string -> string -> Z.

(** [let filtered = model.rows; if (q) { filtered = filtered.filter(...) }] *)
Definition filter_phase (model : loc) (query : option string) : M loc :=
  let q := toLowerCase (default "" query) in
  let* rs := get_rows model in
  if truthy q then array_filter (row_matches q) rs else ret rs.

(** The rest of the body, from the test of [sortIndex] on. *)
Definition sort_phase (model : loc) (sortIndex : option Z)
  (sortDirection : string) (filtered : loc) : M loc :=
  match sortIndex with
  | None => ret filtered
  | Some i =>
      let* hs := get_headers model in
      let* headers := read_strings hs in
      if (i <? 0)%Z || (Z.of_nat (List.length headers) <=? i)%Z
      then ret filtered
      else
        let* ks := get_keys model in
        let* keys := read_strings ks in
        match keys !! Z.to_nat i with
        | None => ret filtered
        | Some key =>
            if negb (truthy key) then ret filtered
            else
              let* copy := array_spread filtered in
              array_sort_in_place
                (row_comparator localeCompare key sortDirection) copy
        end
  end.

Definition filterAndSortRows (model : loc) (query : option string)
  (sortIndex : option Z) (sortDirection : string) : M loc :=
  let* filtered := filter_phase model query in
  sort_phase model sortIndex sortDirection filtered.

End HeapFilterSort.

(** The object at [model] is a table model with the arrays [hs], [ks],
    [rs], whose contents are those of [m]. *)
Definition holds (h : Heap) (model hs ks rs : loc) (m : TableModel)
  : Prop :=
  h !! model = Some (ModelObj hs ks rs)
  /\ h !! hs = Some (StringArray (headers m))
  /\ h !! ks = Some (StringArray (keys m))
  /\ h !! rs = Some (RowArray (rows m)).

(** Every object of [h] is in [h'] as it was in [h]. *)
Definition unchanged (h h' : Heap) : Prop :=
  forall l o, h !! l = Some o -> h' !! l = Some o.

(** The test model, as objects 1 to 4 of a heap. *)
Definition zebra_heap (zebra : TableModel) : Heap :=
  <[4%positive := ModelObj 1%positive 2%positive 3%positive]>
    (<[3%positive := RowArray (rows zebra)]>
       (<[2%positive := StringArray (keys zebra)]>
          (<[1%positive := StringArray (headers zebra)]> ∅))).

End Mem.

(** ** CSV export *)

(** The double quote character and the line feed. *)
Definition dquote : ascii := "034"%char.
Definition newline : ascii := "010"%char.

(** The [replace] of the CSV export: every double quote of the value
    becomes two. *)
Fixpoint escape_quotes (s : string) : string :=
  match s with
  | EmptyString => EmptyString
  | String c s' =>
      if Ascii.eqb c dquote
      then String dquote (String dquote (escape_quotes s'))
      else String c (escape_quotes s')
  end.

(** The body of [model.keys.map(key => ...)]: the cell, or [''] for a falsy
    key, with its quotes doubled and a quote on either side. *)
Definition csv_field (row : Row) (key : string) : string :=
  let v := if truthy key then cell row key else "" in
  String dquote (escape_quotes v +:+ String dquote "").

(** The array [lines]: the header row, then one line for each row. *)
Definition csv_lines (model : TableModel) (rows : list Row) : list string :=
  join "," (headers model)
  :: List.map (fun row => join "," (List.map (csv_field row) (keys model)))
       rows.

Definition tableModelToCsv (model : TableModel) (rows : list Row) : string :=
  join (String newline "") (csv_lines model rows).

(** ** The state of the rendered table

    [renderOntologyTable] keeps three variables in its closure; the event
    listeners it registers update them and redraw the body from
    [filterAndSortRows].  The listeners are embedded as functions on that
    state; the elements they draw are left out. *)

Module View.

Record State : Type := mkState {
  sortIndex : Z;
  sortDirection : string;
  currentQuery : string
}.

(** [let sortIndex = 0; let sortDirection = 'asc'; let currentQuery = ''] *)
Definition initial : State := mkState 0 "asc" "".

(** The click listener of the table head.  The target is a header cell
    carrying its column number in [dataset.sortIndex] ([Some i]), or another
    element without one ([None]). *)
Definition on_click (target : option nat) (st : State) : State :=
  match target with
  | None => st
  | Some idx =>
      let i := Z.of_nat idx in
      if (i =? sortIndex st)%Z
      then mkState (sortIndex st)
             (if String.eqb (sortDirection st) "asc" then "desc" else "asc")
             (currentQuery st)
      else mkState i "asc" (currentQuery st)
  end.

(** The input listener of the filter box. *)
Definition on_input (v : string) (st : State) : State :=
  mkState (sortIndex st) (sortDirection st) v.

Inductive Event : Type :=
  | Click (target : option nat)
  | Input (v : string).

Definition handle (st : State) (e : Event) : State :=
  match e with
  | Click target => on_click target st
  | Input v => on_input v st
  end.

(** The state after a sequence of events, from the initial one. *)
Definition run (events : list Event) : State :=
  List.fold_left handle events initial.

Section Render.

Variable localeCompare : string -> string -> Z.

(** The rows that [rerenderBody] draws, and that the export button writes. *)
Definition visible_rows (tableModel : TableModel) (st : State) : list Row :=
  filterAndSortRows localeCompare tableModel (Some (currentQuery st))
    (Some (sortIndex st)) (sortDirection st).

(** The CSV text that the click listener of the export button builds. *)
Definition export_csv (tableModel : TableModel) (st : State) : string :=
  tableModelToCsv tableModel (visible_rows tableModel st).

End Render.

End View.

(** ** Compact IRIs *)

(** [Object.entries(COMMON_PREFIXES)], in the order the keys were written. *)
Definition COMMON_PREFIXES : list (string * string) :=
  [(NS.rdf, "rdf"); (NS.rdfs, "rdfs"); (NS.owl, "owl"); (NS.dc, "dc");
   (NS.dcterms, "dcterms"); (NS.skos, "skos")].

(** [s.slice(n)] for [0 <= n]: the string without its first [n] characters. *)
Fixpoint slice_from (n : nat) (s : string) : string :=
  match n, s with
  | O, _ => s
  | S n', EmptyString => EmptyString
  | S n', String _ s' => slice_from n' s'
  end.

(** The loop of [iriToCurieIfCommon] over the entries that are left. *)
Fixpoint curie_loop (entries : list (string * string)) (iri : string)
  : string :=
  match entries with
  | [] => iri
  | (ns, prefix) :: rest =>
      if String.prefix ns iri
      then prefix +:+ ":" +:+ slice_from (String.length ns) iri
      else curie_loop rest iri
  end.

Definition iriToCurieIfCommon (iri : string) : string :=
  curie_loop COMMON_PREFIXES iri.

(** ** The site header: escaping *)

(** [s.replaceAll(c, rep)] for a pattern of one character. *)
Fixpoint replaceAll_char (c : ascii) (rep : string) (s : string) : string :=
  match s with
  | EmptyString => EmptyString
  | String d s' =>
      if Ascii.eqb d c then rep +:+ replaceAll_char c rep s'
      else String d (replaceAll_char c rep s')
  end.

Definition escapeHtml (s : string) : string :=
  replaceAll_char "'"%char "&#39;"
    (replaceAll_char dquote "&quot;"
       (replaceAll_char ">"%char "&gt;"
          (replaceAll_char "<"%char "&lt;"
             (replaceAll_char "&"%char "&amp;" s)))).

(** ** Notions that the statements below use *)

(** The literal carries the language tag "en", in any letter case. *)
Definition tagged_en (l : Term) : Prop := toLowerCase (language l) = "en".

(** The literal carries no language tag. *)
Definition untagged (l : Term) : Prop := language l = "".

(** The file name, letter case aside, ends with the extension [ext]. *)
Definition has_extension (filename ext : string) : Prop :=
  exists stem, toLowerCase filename = stem +:+ ext.

(** The last character, [None] for the empty string. *)
Fixpoint last_char (s : string) : option ascii :=
  match s with
  | EmptyString => None
  | String c EmptyString => Some c
  | String _ s' => last_char s'
  end.

(** Every character of the string satisfies [P]. *)
Fixpoint all_chars (P : ascii -> Prop) (s : string) : Prop :=
  match s with
  | EmptyString => True
  | String c s' => P c /\ all_chars P s'
  end.

(** Every character of the string lies outside [A-Za-z0-9]. *)
Fixpoint no_alnum (s : string) : Prop :=
  match s with
  | EmptyString => True
  | String c s' => is_alnum c = false /\ no_alnum s'
  end.

(** A character of [A-Za-z0-9], or the space that [replace] puts in. *)
Definition alnum_or_blank (c : ascii) : Prop :=
  is_alnum c = true \/ c = " "%char.

(** The quad types its subject as an ontology: [rdf:type owl:Ontology]. *)
Definition types_an_ontology (q : Quad) : Prop :=
  predicate q = namedNode (NS.rdf +:+ "type")
  /\ object q = namedNode (NS.owl +:+ "Ontology").

(** The metadata record with every field [null]. *)
Definition empty_metadata : OntologyMetadata :=
  mkMeta None None None None None None None.

(** The flag that [keepFlags] computes for a key. *)
Definition keep_key (rows : list Row) (key : string) : bool :=
  if String.eqb key "iri" then true else List.existsb (has_data key) rows.


(** The value contains the query as a substring, letter case aside. *)
Definition contains_ignoring_case (v q : string) : Prop :=
  exists a b, toLowerCase v = a +:+ toLowerCase q +:+ b.

(** At least one field value of the row contains the query. *)
Definition row_has_match (q : string) (r : Row) : Prop :=
  exists k v, r !! k = Some v /\ contains_ignoring_case v q.

(** What is asked of a collation: the sign of a comparison flips with its
    arguments, and the order is transitive. *)
Definition consistent_collation (localeCompare : string -> string -> Z)
  : Prop :=
  (forall a b, (localeCompare a b < 0)%Z <-> (0 < localeCompare b a)%Z)
  /\ (forall a b c, (localeCompare a b <= 0)%Z -> (localeCompare b c <= 0)%Z
                    -> (localeCompare a c <= 0)%Z).

(** The rows are in the order that [localeCompare] on the values of the
    column [key] gives: ascending for the direction 'asc', descending for
    any other direction. *)
Definition sorted_by (localeCompare : string -> string -> Z)
  (key sortDirection : string) (l : list Row) : Prop :=
  StronglySorted
    (fun a b =>
       if String.eqb sortDirection "asc"
       then (localeCompare (cell a key) (cell b key) <= 0)%Z
       else (localeCompare (cell a key) (cell b key) >= 0)%Z)
    l.

(** The call returns an array that was not in the heap before, and leaves
    every object of the heap as it was. *)
Definition returns_new_array (localeCompare : string -> string -> Z)
  (h : Mem.Heap) (model : Mem.loc) (query : option string)
  (sortIndex : option Z) (sortDirection : string) : Prop :=
  exists res h',
    Mem.filterAndSortRows localeCompare model query sortIndex sortDirection h
    = Some (res, h')
    /\ h !! res = None
    /\ Mem.unchanged h h'.

(** ** Sample data *)

(** One class with a label, two alternative labels and a parent class, and
    an untyped subject that the classifier leaves out. *)
Definition example_store : Store :=
  let cls := namedNode "http://example.org/ClassA" in
  [quad cls (namedNode (NS.rdf +:+ "type")) (namedNode (NS.owl +:+ "Class"));
   quad cls (namedNode (NS.rdfs +:+ "label")) (literal "Class A Label" "en");
   quad cls (namedNode (NS.skos +:+ "altLabel")) (literal "Alt 1" "en");
   quad cls (namedNode (NS.skos +:+ "altLabel")) (literal "Alt 2" "en");
   quad cls (namedNode (NS.rdfs +:+ "subClassOf"))
        (namedNode "http://example.org/ParentClass");
   quad (namedNode "http://example.org/ParentClass")
        (namedNode (NS.rdfs +:+ "label")) (literal "Parent" "")].


(** A collation to run the examples with: the order of the code units. *)
Definition code_unit_compare (a b : string) : Z :=
  match String.compare a b with
  | Lt => (-1)%Z
  | Eq => 0%Z
  | Gt => 1%Z
  end.

Definition zebra_row : Row :=
  object_of [("iri", "http://example.org/a"); ("label", "Zebra")].
Definition apple_row : Row :=
  object_of [("iri", "http://example.org/b"); ("label", "Apple")].
Definition banana_row : Row :=
  object_of [("iri", "http://example.org/c"); ("label", "Banana")].

(** The model of the test suite. *)
Definition zebra_model : TableModel :=
  {| headers := ["iri"; "label"];
     keys := ["iri"; "label"];
     rows := [zebra_row; apple_row; banana_row] |}.

(** A model whose second column has the empty string as its key. *)
Definition blank_key_model : TableModel :=
  {| headers := ["iri"; ""];
     keys := ["iri"; ""];
     rows := [object_of [("iri", "http://example.org/a"); ("", "Zebra")];
              object_of [("iri", "http://example.org/b"); ("", "Apple")]] |}.

(** ** Notions for the properties of the remaining code *)

(** The store has a quad with the named node [s] as subject, the named node
    [p] as predicate and [o] as object, in whatever graph. *)
Definition has_triple (store : Store) (s p : string) (o : Term) : Prop :=
  exists q, In q store /\ subject q = namedNode s
            /\ predicate q = namedNode p /\ object q = o.

(** One turn of the [forEach] that fills [subjectTermMap], the [Map] being
    the list of its entries. *)
Definition subject_map_step (m : list (string * Term)) (q : Quad)
  : list (string * Term) :=
  if negb (isBlankNode (Some (subject q)))
     && String.eqb (termType (subject q)) "NamedNode"
  then map_set m (value (subject q)) (subject q)
  else m.


(** The rows [z] and [y] tie in the column [key]: the collation puts
    neither value before the other. *)
Definition ties_with (localeCompare : string -> string -> Z) (key : string)
  (z y : Row) : bool :=
  (localeCompare (cell z key) (cell y key) =? 0)%Z.

(** Reading back what [escape_quotes] wrote: two quotes in a row stand for
    one. *)
Fixpoint unescape_quotes (s : string) : string :=
  match s with
  | EmptyString => EmptyString
  | String c s' =>
      if Ascii.eqb c dquote then
        match s' with
        | String d s'' =>
            if Ascii.eqb d dquote then String dquote (unescape_quotes s'')
            else String c (String d (unescape_quotes s''))
        | EmptyString => String c EmptyString
        end
      else String c (unescape_quotes s')
  end.

(** A reader of CSV text keeps track of being inside a quoted field: every
    double quote switches.  [csv_state] is where it ends up after [s]. *)
Fixpoint csv_state (in_quotes : bool) (s : string) : bool :=
  match s with
  | EmptyString => in_quotes
  | String c s' =>
      csv_state (if Ascii.eqb c dquote then negb in_quotes else in_quotes) s'
  end.

(** The number of separators [sep] (the comma between fields, the line feed
    between records) that the reader meets outside quoted fields. *)
Fixpoint csv_count (sep : ascii) (in_quotes : bool) (s : string) : nat :=
  match s with
  | EmptyString => 0
  | String c s' =>
      if Ascii.eqb c dquote then csv_count sep (negb in_quotes) s'
      else if Ascii.eqb c sep && negb in_quotes
           then S (csv_count sep in_quotes s')
           else csv_count sep in_quotes s'
  end.

(** A header without double quote, comma or line feed. *)
Definition plain_header (h : string) : Prop :=
  all_chars
    (fun c => negb (Ascii.eqb c dquote) && negb (Ascii.eqb c ",")
              && negb (Ascii.eqb c newline) = true)
    h.

(** A piece of text that the reader, starting outside quotes, leaves
    outside quotes without having met a separator. *)
Definition csv_closed (sep : ascii) (p : string) : Prop :=
  csv_state false p = false /\ csv_count sep false p = 0.

(** What [escapeHtml] writes for one character. *)
Definition html_entity (c : ascii) : string :=
  if Ascii.eqb c "&" then "&amp;"
  else if Ascii.eqb c "<" then "&lt;"
  else if Ascii.eqb c ">" then "&gt;"
  else if Ascii.eqb c dquote then "&quot;"
  else if Ascii.eqb c "'" then "&#39;"
  else String c "".

(** The text written character by character. *)
Fixpoint html_entities (s : string) : string :=
  match s with
  | EmptyString => EmptyString
  | String c s' => html_entity c +:+ html_entities s'
  end.

(** A character that ends or opens markup or an attribute value. *)
Definition html_special (c : ascii) : bool :=
  Ascii.eqb c "<" || Ascii.eqb c ">" || Ascii.eqb c dquote
  || Ascii.eqb c "'".

(** Every click of the sequence that hits a header cell hits one of the
    first [n] columns. *)
Definition clicks_within (n : nat) (events : list View.Event) : Prop :=
  forall i, In (View.Click (Some i)) events -> i < n.

(** The direction is one of the two that the listeners write. *)
Definition direction_ok (st : View.State) : Prop :=
  View.sortDirection st = "asc" \/ View.sortDirection st = "desc".

(** The string is empty or starts with a character that [toUpperCase]
    leaves alone. *)
Definition head_capitalized (s : string) : Prop :=
  match s with
  | EmptyString => True
  | String c _ => upper_char c = c
  end.

(** * Properties *)

(** ** Lists: [find] *)

Lemma find_none_iff {A : Type} (f : A -> bool) (l : list A) :
  List.find f l = None <-> (forall x, In x l -> f x = false).
Proof.
  split; [apply List.find_none|].
  induction l as [|a l IH]; simpl; intros H; [done|].
  rewrite (H a (or_introl eq_refl)). apply IH. intros x Hx. apply H. by right.
Qed.

Lemma find_first {A : Type} (f : A -> bool) (pre post : list A) (x : A) :
  (forall y, In y pre -> f y = false) -> f x = true ->
  List.find f (pre ++ x :: post) = Some x.
Proof.
  induction pre as [|a pre IH]; simpl; intros Hpre Hx.
  - by rewrite Hx.
  - rewrite (Hpre a (or_introl eq_refl)). apply IH; [|done].
    intros y Hy. apply Hpre. by right.
Qed.

Lemma find_filter_implied {A : Type} (f g : A -> bool) (l : list A) :
  (forall x, f x = true -> g x = true) ->
  List.find f (List.filter g l) = List.find f l.
Proof.
  intros Hfg. induction l as [|a l IH]; simpl; [done|].
  destruct (g a) eqn:Hg; simpl.
  - by rewrite IH.
  - destruct (f a) eqn:Hf; [|done]. apply Hfg in Hf. congruence.
Qed.

(** ** Strings: [append] *)

Lemma append_cons (c : ascii) (s t : string) :
  String c s +:+ t = String c (s +:+ t).
Proof. reflexivity. Qed.

Lemma string_length_app (s t : string) :
  String.length (s +:+ t) = String.length s + String.length t.
Proof.
  induction s as [|c s IH]; [done|].
  rewrite append_cons. simpl. by rewrite IH.
Qed.

(** ** Index filters and pruned rows *)

Lemma filter_by_index_length {A B : Type} (f : nat -> bool) (i : nat)
  (xs : list A) (ys : list B) :
  List.length xs = List.length ys ->
  List.length (filter_by_index f i xs) = List.length (filter_by_index f i ys).
Proof.
  revert i ys. induction xs as [|x xs IH]; intros i [|y ys] Hlen;
    simpl in *; try done.
  destruct (f i); simpl; [f_equal|]; apply IH; lia.
Qed.

Lemma filter_by_index_none {A : Type} (f : nat -> bool) (i : nat)
  (xs : list A) :
  (forall j, f (i + j) = false) -> filter_by_index f i xs = [].
Proof.
  revert i. induction xs as [|x xs IH]; intros i Hf; simpl; [done|].
  specialize (Hf 0) as Hi. rewrite Nat.add_0_r in Hi. rewrite Hi.
  apply IH. intros j. replace (S i + j) with (i + S j) by lia. apply Hf.
Qed.

(** Filtering by the flags [map g ks] keeps the elements that sit at the
    positions of the members of [ks] that satisfy [g]. *)
Lemma filter_by_index_flags {A B : Type} (g : B -> bool) (f : nat -> bool)
  (i : nat) (xs : list A) (ks : list B) :
  (forall j, f (i + j) = default false (List.map g ks !! j)) ->
  filter_by_index f i xs
  = List.map fst (List.filter (fun p => g (snd p)) (List.combine xs ks)).
Proof.
  revert i ks. induction xs as [|x xs IH]; intros i ks Hf; simpl; [done|].
  destruct ks as [|k ks].
  - specialize (Hf 0) as Hi. rewrite Nat.add_0_r in Hi. rewrite Hi. simpl.
    apply filter_by_index_none. intros j.
    replace (S i + j) with (i + S j) by lia. by rewrite Hf.
  - specialize (Hf 0) as Hi. rewrite Nat.add_0_r in Hi. simpl in Hi.
    rewrite Hi. simpl.
    assert (Hrest : filter_by_index f (S i) xs
              = List.map fst (List.filter (fun p => g (snd p))
                                (List.combine xs ks))).
    { apply IH. intros j. replace (S i + j) with (i + S j) by lia.
      by rewrite Hf. }
    destruct (g k); simpl; by rewrite Hrest.
Qed.

Lemma filter_combine_diag {B : Type} (g : B -> bool) (ks : list B) :
  List.map fst (List.filter (fun p => g (snd p)) (List.combine ks ks))
  = List.filter g ks.
Proof.
  induction ks as [|k ks IH]; simpl; [done|].
  destruct (g k); simpl; by rewrite IH.
Qed.

Lemma model_keys (store : Store) :
  keys (buildElementTableModel store)
  = List.filter
      (keep_key (List.map (element_row store) (elementSubjects store)))
      allKeys.
Proof.
  unfold buildElementTableModel; cbn [keys].
  rewrite <- filter_combine_diag. by apply filter_by_index_flags.
Qed.

Lemma model_headers (store : Store) :
  headers (buildElementTableModel store)
  = List.map fst
      (List.filter
         (fun p => keep_key
                     (List.map (element_row store) (elementSubjects store))
                     (snd p))
         (List.combine allHeaders allKeys)).
Proof.
  unfold buildElementTableModel; cbn [headers].
  by apply filter_by_index_flags.
Qed.

Lemma model_rows (store : Store) :
  rows (buildElementTableModel store)
  = List.map (prune_row (keys (buildElementTableModel store)))
      (List.map (element_row store) (elementSubjects store)).
Proof. reflexivity. Qed.

Lemma prune_fold_lookup_notin (r : Row) (keys : list string) (obj : Row)
  (k : string) :
  ~ In k keys ->
  List.fold_left (fun obj k => <[k := cell r k]> obj) keys obj !! k = obj !! k.
Proof.
  revert obj. induction keys as [|k' keys IH]; intros obj Hk; simpl; [done|].
  rewrite IH by (intros ?; apply Hk; by right).
  apply lookup_insert_ne. intros ->. apply Hk. by left.
Qed.

Lemma prune_fold_lookup_in (r : Row) (keys : list string) (obj : Row)
  (k : string) :
  In k keys ->
  List.fold_left (fun obj k => <[k := cell r k]> obj) keys obj !! k
  = Some (cell r k).
Proof.
  revert obj. induction keys as [|k' keys IH]; intros obj Hk; simpl; [done|].
  destruct (List.in_dec string_dec k keys) as [Hin|Hnotin].
  - by apply IH.
  - destruct Hk as [->|Hk]; [|done].
    rewrite prune_fold_lookup_notin by done. apply lookup_insert_eq.
Qed.

Lemma prune_row_lookup_in (keys : list string) (r : Row) (k : string) :
  In k keys -> prune_row keys r !! k = Some (cell r k).
Proof. apply prune_fold_lookup_in. Qed.

Lemma prune_row_lookup_notin (keys : list string) (r : Row) (k : string) :
  ~ In k keys -> prune_row keys r !! k = None.
Proof.
  intros Hk. unfold prune_row. by rewrite prune_fold_lookup_notin.
Qed.

(** ** C1: the shape of the table model *)

(** C1. The model built from any store has as many headers as keys, its
    first header and its first key are both "iri", and the fields of each
    of its rows are exactly the keys of the model. *)
Theorem buildElementTableModel_shape :
  forall store : Store,
    let m := buildElementTableModel store in
    List.length (headers m) = List.length (keys m)
    /\ headers m !! 0 = Some "iri"
    /\ keys m !! 0 = Some "iri"
    /\ forall r, In r (rows m) ->
         forall k : string, is_Some (r !! k) <-> In k (keys m).
Proof.
  intros store m. split; [|split; [|split]].
  - by apply filter_by_index_length.
  - reflexivity.
  - reflexivity.
  - intros r Hr k. subst m. rewrite model_rows in Hr.
    apply List.in_map_iff in Hr as (r0 & <- & _).
    destruct (List.in_dec string_dec k (keys (buildElementTableModel store)))
      as [Hin|Hnotin].
    + rewrite prune_row_lookup_in by done. split; [done | by eexists].
    + rewrite prune_row_lookup_notin by done. split; [|done].
      intros [v Hv]. discriminate.
Qed.

Lemma buildElementTableModel_shape_witness :
  (is_Some (List.hd ∅ (rows (buildElementTableModel example_store))
              !! "alternativeLabel")
   <-> In "alternativeLabel" (keys (buildElementTableModel example_store)))
  /\ (is_Some (List.hd ∅ (rows (buildElementTableModel example_store))
                 !! "definition")
      <-> In "definition" (keys (buildElementTableModel example_store))).
Proof.
  split;
    apply (proj2 (proj2 (proj2
             (buildElementTableModel_shape example_store))));
    vm_compute; left; reflexivity.
Defined.

(** ** C2: the literal selector *)

Lemma tagged_en_truthy (l : Term) :
  String.eqb (toLowerCase (language l)) "en" = true ->
  truthy (language l) = true.
Proof.
  unfold truthy. destruct (language l); simpl; [discriminate | done].
Qed.

(** C2. [pickBestLiteral] returns nothing for the empty list; otherwise the
    first literal tagged "en" (case-insensitively) if there is one, else the
    first literal without a language tag if there is one, else the first
    literal of the list. *)
Theorem pickBestLiteral_policy :
  pickBestLiteral [] = None /\
  forall literals : list Term, literals <> [] ->
    (forall pre l post, literals = pre ++ l :: post ->
       (forall x, In x pre -> ~ tagged_en x) -> tagged_en l ->
       pickBestLiteral literals = Some l) /\
    ((forall x, In x literals -> ~ tagged_en x) ->
     forall pre l post, literals = pre ++ l :: post ->
       (forall x, In x pre -> ~ untagged x) -> untagged l ->
       pickBestLiteral literals = Some l) /\
    ((forall x, In x literals -> ~ tagged_en x) ->
     (forall x, In x literals -> ~ untagged x) ->
     pickBestLiteral literals = List.head literals).
Proof.
  split; [reflexivity|].
  intros literals Hne.
  destruct literals as [|first rest]; [done|].
  unfold pickBestLiteral.
  rewrite (find_filter_implied _ _ _ tagged_en_truthy).
  assert (Hno_en : (forall x, In x (first :: rest) -> ~ tagged_en x) ->
    List.find (fun l => String.eqb (toLowerCase (language l)) "en")
      (first :: rest) = None).
  { intros H. apply find_none_iff. intros x Hx.
    apply String.eqb_neq. by apply H. }
  split; [|split].
  - intros pre l post -> Hpre Hl.
    rewrite (find_first _ pre post l); [done| |by apply String.eqb_eq].
    intros y Hy. apply String.eqb_neq. by apply Hpre.
  - intros Hen pre l post Heq Hpre Hl.
    rewrite (Hno_en Hen), Heq.
    rewrite (find_first _ pre post l); [done| |].
    + intros y Hy. unfold truthy. rewrite negb_involutive.
      apply String.eqb_neq. by apply Hpre.
    + unfold truthy. rewrite negb_involutive. by apply String.eqb_eq.
  - intros Hen Hlang. rewrite (Hno_en Hen).
    assert (List.find (fun l => negb (truthy (language l))) (first :: rest)
            = None) as ->; [|done].
    apply find_none_iff. intros x Hx. unfold truthy.
    rewrite negb_involutive. apply String.eqb_neq. by apply Hlang.
Qed.

Lemma pickBestLiteral_policy_witness :
  pickBestLiteral [literal "French" "fr"; literal "English" "EN"]
    = Some (literal "English" "EN")
  /\ pickBestLiteral [literal "Deutsch" "de"; literal "Plain" ""]
    = Some (literal "Plain" "")
  /\ pickBestLiteral [literal "Francais" "fr"; literal "Espanol" "es"]
    = Some (literal "Francais" "fr").
Proof.
  assert (Hin : forall (P : Term -> Prop) (a b x : Term),
             P a -> P b -> In x [a; b] -> P x).
  { intros P a b x Ha Hb Hx.
    destruct Hx as [<-|[<-|[]]]; done. }
  split; [|split].
  - apply (proj1 (proj2 pickBestLiteral_policy
                    [literal "French" "fr"; literal "English" "EN"]
                    ltac:(discriminate))
             [literal "French" "fr"] (literal "English" "EN") [] eq_refl).
    + intros x [<-|[]]. vm_compute. discriminate.
    + reflexivity.
  - apply (proj1 (proj2 (proj2 pickBestLiteral_policy
                    [literal "Deutsch" "de"; literal "Plain" ""]
                    ltac:(discriminate)))
             (fun x => Hin (fun t => ~ tagged_en t)
                         (literal "Deutsch" "de") (literal "Plain" "") x
                         ltac:(vm_compute; discriminate)
                         ltac:(vm_compute; discriminate))
             [literal "Deutsch" "de"] (literal "Plain" "") [] eq_refl).
    + intros x [<-|[]]. vm_compute. discriminate.
    + reflexivity.
  - apply (proj2 (proj2 (proj2 pickBestLiteral_policy
                    [literal "Francais" "fr"; literal "Espanol" "es"]
                    ltac:(discriminate)))).
    + intros x Hx.
      refine (Hin (fun t => ~ tagged_en t) _ _ x _ _ Hx);
        vm_compute; discriminate.
    + intros x Hx.
      refine (Hin (fun t => ~ untagged t) _ _ x _ _ Hx);
        vm_compute; discriminate.
Defined.

(** ** C3: which columns survive *)

Lemma has_data_spec (key : string) (r : Row) :
  has_data key r = true <-> trim (cell r key) <> "".
Proof. unfold has_data. by rewrite negb_true_iff, String.eqb_neq. Qed.







(** ** Strings: substrings and letter case *)

Lemma prefix_iff (q s : string) :
  String.prefix q s = true <-> exists b, s = q +:+ b.
Proof.
  revert q. induction s as [|d s IH]; intros [|c q]; simpl.
  - split; [intros _; by exists "" | done].
  - split; [done | intros [b Hb]; rewrite append_cons in Hb; discriminate].
  - split; [intros _; by exists (String d s) | done].
  - destruct (ascii_dec c d) as [->|Hne].
    + rewrite IH. split; intros [b Hb]; exists b.
      * rewrite append_cons. by f_equal.
      * rewrite append_cons in Hb. by inversion Hb.
    + split; [done|]. intros [b Hb]. rewrite append_cons in Hb.
      inversion Hb. done.
Qed.

Lemma includes_iff (s q : string) :
  includes s q = true <-> exists a b, s = a +:+ q +:+ b.
Proof.
  induction s as [|c s IH].
  - cbn [includes]. rewrite orb_false_r, prefix_iff. split.
    + intros [b Hb]. by exists "", b.
    + intros (a & b & Hab). destruct a; [by exists b|].
      rewrite append_cons in Hab. discriminate.
  - cbn [includes]. rewrite orb_true_iff, IH, prefix_iff. split.
    + intros [[b Hb] | (a & b & Hab)].
      * by exists "", b.
      * exists (String c a), b. rewrite append_cons. by f_equal.
    + intros (a & b & Hab). destruct a as [|d a].
      * left. by exists b.
      * right. rewrite append_cons in Hab. inversion Hab. by exists a, b.
Qed.

Lemma includes_empty (s : string) : includes s "" = true.
Proof. destruct s; reflexivity. Qed.

Lemma toLowerCase_empty_iff (s : string) : toLowerCase s = "" <-> s = "".
Proof. destruct s; simpl; split; done. Qed.

(** ** Rows: matching a query *)

Lemma row_matches_iff (q : string) (r : Row) :
  row_matches (toLowerCase q) r = true <-> row_has_match q r.
Proof.
  unfold row_matches, row_has_match, contains_ignoring_case.
  rewrite List.existsb_exists. split.
  - intros (v & Hv & Hinc). apply List.in_map_iff in Hv as ([k v'] & <- & Hkv).
    apply list_elem_of_In, elem_of_map_to_list in Hkv.
    exists k, v'. split; [done|]. by apply includes_iff.
  - intros (k & v & Hkv & Hinc). exists v. split; [|by apply includes_iff].
    apply List.in_map_iff. exists (k, v). split; [done|].
    by apply list_elem_of_In, elem_of_map_to_list.
Qed.

Lemma row_matches_empty_query (r : Row) :
  r <> ∅ -> row_matches "" r = true.
Proof.
  intros Hr. unfold row_matches. apply List.existsb_exists.
  destruct (map_to_list r) as [|[k v] l] eqn:E.
  - by apply map_to_list_empty_iff in E.
  - exists v. split; [by left | apply includes_empty].
Qed.

(** ** Sorting: the result is a permutation *)

Lemma sort_insert_perm {A : Type} (cmp : A -> A -> Z) (x : A) (l : list A) :
  Permutation (sort_insert cmp x l) (x :: l).
Proof.
  induction l as [|y l IH]; simpl; [done|].
  destruct (cmp x y <=? 0)%Z; [done|].
  rewrite IH. apply perm_swap.
Qed.

Lemma array_sort_perm {A : Type} (cmp : A -> A -> Z) (l : list A) :
  Permutation (array_sort cmp l) l.
Proof.
  induction l as [|x l IH]; simpl; [done|].
  unfold array_sort in *. simpl. rewrite sort_insert_perm. by constructor.
Qed.

Lemma filterAndSortRows_perm (localeCompare : string -> string -> Z)
  (model : TableModel) (query : option string) (sortIndex : option Z)
  (sortDirection : string) :
  Permutation
    (filterAndSortRows localeCompare model query sortIndex sortDirection)
    (filter_rows model query).
Proof.
  unfold filterAndSortRows. destruct (sort_key model sortIndex); [|done].
  apply array_sort_perm.
Qed.

(** ** C4: what the filter keeps *)

(** C4. Whatever the sort index and direction, the rows returned for a
    non-empty query are exactly the rows of the model that have a field
    value containing the query, letter case aside; for the empty query
    they are all the rows of the model.  The two agree on every model whose
    rows have at least one field, as the empty query is contained in any
    value. *)
Theorem filterAndSortRows_filter :
  forall (localeCompare : string -> string -> Z) (model : TableModel)
         (query : option string) (sortIndex : option Z)
         (sortDirection : string),
    let q := default "" query in
    let result :=
      filterAndSortRows localeCompare model query sortIndex sortDirection in
    let matching := List.filter (row_matches (toLowerCase q)) (rows model) in
    (forall r, row_matches (toLowerCase q) r = true <-> row_has_match q r)
    /\ (q <> "" -> Permutation result matching)
    /\ (q = "" -> Permutation result (rows model))
    /\ ((forall r, In r (rows model) -> r <> ∅) ->
        Permutation result matching).
Proof.
  intros localeCompare model query sortIndex sortDirection q result matching.
  assert (Hperm : Permutation result (filter_rows model query))
    by apply filterAndSortRows_perm.
  assert (Hq : q <> "" -> filter_rows model query = matching).
  { intros Hne. unfold filter_rows, truthy. fold q.
    assert (toLowerCase q <> "") as Hl by (by rewrite toLowerCase_empty_iff).
    apply String.eqb_neq in Hl. by rewrite Hl. }
  assert (Hempty : q = "" -> filter_rows model query = rows model).
  { intros He. unfold filter_rows. fold q. by rewrite He. }
  split; [intros r; apply row_matches_iff|].
  split; [by intros Hne; rewrite <- (Hq Hne)|].
  split; [by intros He; rewrite <- (Hempty He)|].
  intros Hfields. destruct (string_dec q "") as [He|Hne].
  - rewrite Hperm, (Hempty He). subst matching. rewrite He. simpl.
    clear -Hfields. induction (rows model) as [|r l IH]; simpl; [done|].
    rewrite row_matches_empty_query by (apply Hfields; by left).
    constructor. apply IH. intros r' Hr'. apply Hfields. by right.
  - by rewrite <- (Hq Hne).
Qed.

Lemma filterAndSortRows_filter_witness :
  Permutation
    (filterAndSortRows code_unit_compare zebra_model (Some "AN")
       (Some 1%Z) "asc")
    [banana_row]
  /\ Permutation
       (filterAndSortRows code_unit_compare zebra_model (Some "")
          (Some 1%Z) "asc")
       (rows zebra_model)
  /\ Permutation
       (filterAndSortRows code_unit_compare zebra_model None None "asc")
       (List.filter (row_matches "") (rows zebra_model)).
Proof.
  split; [|split].
  - apply (proj1 (proj2 (filterAndSortRows_filter code_unit_compare
                           zebra_model (Some "AN") (Some 1%Z) "asc"))).
    discriminate.
  - apply (proj1 (proj2 (proj2 (filterAndSortRows_filter code_unit_compare
                                  zebra_model (Some "") (Some 1%Z) "asc")))).
    reflexivity.
  - apply (proj2 (proj2 (proj2 (filterAndSortRows_filter code_unit_compare
                                  zebra_model None None "asc")))).
    intros r Hr Hempty. subst r. vm_compute in Hr.
    destruct Hr as [Hr|[Hr|[Hr|[]]]]; discriminate.
Defined.

(** ** Sorting: the result is ordered *)

Section SortInsert.

Context {A : Type} (cmp : A -> A -> Z).

Let le (a b : A) : Prop := (cmp a b <= 0)%Z.

Hypothesis le_total : forall a b, le a b \/ le b a.
Hypothesis le_trans : forall a b c, le a b -> le b c -> le a c.

Lemma sort_insert_sorted (x : A) (l : list A) :
  StronglySorted le l -> StronglySorted le (sort_insert cmp x l).
Proof.
  induction 1 as [|y l Hl IH Hy]; simpl.
  - repeat constructor.
  - destruct (cmp x y <=? 0)%Z eqn:Hxy.
    + apply Z.leb_le in Hxy. constructor; [by constructor|].
      constructor; [done|].
      eapply List.Forall_impl; [|exact Hy]. intros z Hz. by eapply le_trans.
    + apply Z.leb_gt in Hxy. constructor; [done|].
      assert (le y x) as Hyx
        by (destruct (le_total x y); [unfold le in *; lia | done]).
      rewrite List.Forall_forall. intros z Hz.
      apply (Permutation_in _ (sort_insert_perm cmp x l)) in Hz.
      destruct Hz as [<-|Hz]; [done|].
      rewrite List.Forall_forall in Hy. by apply Hy.
Qed.

Lemma array_sort_sorted (l : list A) : StronglySorted le (array_sort cmp l).
Proof.
  induction l as [|x l IH]; [constructor|].
  by apply sort_insert_sorted.
Qed.

(** The sort is stable: rows that compare equal to one another keep their
    relative order, so the result is the one the language prescribes. *)
Lemma sort_insert_stable (z x : A) (l : list A) :
  List.filter (fun y => (cmp z y <=? 0)%Z && (cmp y z <=? 0)%Z)
    (sort_insert cmp x l)
  = List.filter (fun y => (cmp z y <=? 0)%Z && (cmp y z <=? 0)%Z) (x :: l).
Proof.
  induction l as [|y l IH]; [done|]. cbn [sort_insert].
  destruct (cmp x y <=? 0)%Z eqn:Hxy; [done|].
  cbn [List.filter] in *. rewrite IH.
  destruct ((cmp z x <=? 0)%Z && (cmp x z <=? 0)%Z) eqn:Hzx;
    destruct ((cmp z y <=? 0)%Z && (cmp y z <=? 0)%Z) eqn:Hzy; try done.
  apply andb_true_iff in Hzx as [_ Hxz], Hzy as [Hzy _].
  apply Z.leb_le in Hxz, Hzy. apply Z.leb_gt in Hxy.
  pose proof (le_trans x z y Hxz Hzy). unfold le in *. lia.
Qed.

Lemma array_sort_stable (z : A) (l : list A) :
  List.filter (fun y => (cmp z y <=? 0)%Z && (cmp y z <=? 0)%Z)
    (array_sort cmp l)
  = List.filter (fun y => (cmp z y <=? 0)%Z && (cmp y z <=? 0)%Z) l.
Proof.
  induction l as [|x l IH]; [done|].
  unfold array_sort in *. cbn [List.fold_right].
  rewrite sort_insert_stable. cbn [List.filter]. by rewrite IH.
Qed.

End SortInsert.

Lemma StronglySorted_weaken {A : Type} (R R' : A -> A -> Prop) (l : list A) :
  (forall a b, R a b -> R' a b) -> StronglySorted R l -> StronglySorted R' l.
Proof.
  intros HR. induction 1 as [|x l Hl IH Hx]; constructor; [done|].
  eapply List.Forall_impl; [|exact Hx]. intros y. apply HR.
Qed.

Lemma row_comparator_sorted (localeCompare : string -> string -> Z)
  (key sortDirection : string) (l : list Row) :
  consistent_collation localeCompare ->
  sorted_by localeCompare key sortDirection
    (array_sort (row_comparator localeCompare key sortDirection) l).
Proof.
  intros [Hanti Htrans].
  pose proof (array_sort_sorted
                (row_comparator localeCompare key sortDirection)) as Hsorted.
  unfold sorted_by, row_comparator in *.
  destruct (String.eqb sortDirection "asc").
  - apply Hsorted.
    + intros a b.
      pose proof (Hanti (cell b key) (cell a key)). lia.
    + intros a b c. apply Htrans.
  - eapply StronglySorted_weaken; [|apply Hsorted].
    + intros a b. simpl. lia.
    + intros a b.
      pose proof (Hanti (cell a key) (cell b key)). lia.
    + intros a b c Hab Hbc.
      pose proof (Hanti (cell a key) (cell b key)).
      pose proof (Hanti (cell b key) (cell c key)).
      pose proof (Hanti (cell a key) (cell c key)).
      pose proof (Htrans (cell c key) (cell b key) (cell a key)). lia.
Qed.

(** ** The code-unit collation is consistent *)

Lemma string_compare_not_gt_trans (a b c : string) :
  String.compare a b <> Gt -> String.compare b c <> Gt ->
  String.compare a c <> Gt.
Proof.
  revert b c. induction a as [|x a IH]; intros [|y b] [|z c]; simpl;
    try done.
  unfold Ascii.compare.
  destruct (N.compare_spec (N_of_ascii x) (N_of_ascii y)) as [Hxy|Hxy|Hxy],
           (N.compare_spec (N_of_ascii y) (N_of_ascii z)) as [Hyz|Hyz|Hyz],
           (N.compare_spec (N_of_ascii x) (N_of_ascii z)) as [Hxz|Hxz|Hxz];
    try done; try lia.
  apply IH.
Qed.

Lemma code_unit_compare_consistent : consistent_collation code_unit_compare.
Proof.
  unfold consistent_collation, code_unit_compare. split.
  - intros a b. rewrite (String.compare_antisym b a).
    destruct (String.compare a b); simpl; lia.
  - intros a b c Hab Hbc.
    pose proof (string_compare_not_gt_trans a b c) as Htrans.
    destruct (String.compare a b), (String.compare b c),
             (String.compare a c); try lia; exfalso; by apply Htrans.
Qed.

(** ** C5: sorting *)

Lemma sort_key_skip (model : TableModel) (i : Z) :
  (i < 0 \/ Z.of_nat (List.length (headers model)) <= i)%Z ->
  sort_key model (Some i) = None.
Proof.
  intros Hi. unfold sort_key.
  destruct (i <? 0)%Z eqn:Hneg; [done|]. apply Z.ltb_ge in Hneg.
  assert ((Z.of_nat (List.length (headers model)) <=? i)%Z = true) as ->
    by (apply Z.leb_le; lia).
  done.
Qed.

Lemma sort_key_unresolved (model : TableModel) (i : Z) :
  keys model !! Z.to_nat i = None \/ keys model !! Z.to_nat i = Some "" ->
  sort_key model (Some i) = None.
Proof.
  intros Hk. unfold sort_key.
  destruct (_ || _); [done|]. by destruct Hk as [-> | ->].
Qed.

Lemma sort_key_resolved (model : TableModel) (i : Z) (key : string) :
  (0 <= i < Z.of_nat (List.length (headers model)))%Z ->
  keys model !! Z.to_nat i = Some key -> key <> "" ->
  sort_key model (Some i) = Some key.
Proof.
  intros Hi Hk Hne. unfold sort_key.
  assert ((i <? 0)%Z = false) as -> by (apply Z.ltb_ge; lia).
  assert ((Z.of_nat (List.length (headers model)) <=? i)%Z = false) as ->
    by (apply Z.leb_gt; lia).
  simpl. rewrite Hk. unfold truthy. apply String.eqb_neq in Hne.
  by rewrite Hne.
Qed.

(** C5 (amended). [filterAndSortRows] returns the filtered rows unsorted
    when the sort index is none or out of range of the headers, and also
    when the key at that index is missing or the empty string.  With an
    index in range whose key is present and not empty, and a consistent
    collation, the result is the filtered rows put in the order of
    [localeCompare] on that key's values, ascending for 'asc' and
    descending otherwise.  On the model with the labels Zebra, Apple,
    Banana and the empty query, sorting column 1 gives Apple, Banana, Zebra
    ascending and Zebra, Banana, Apple descending. *)
Theorem filterAndSortRows_sort :
  forall (localeCompare : string -> string -> Z) (model : TableModel)
         (query : option string) (sortDirection : string),
    let result := fun sortIndex =>
      filterAndSortRows localeCompare model query sortIndex sortDirection in
    result None = filter_rows model query
    /\ (forall i : Z,
          (i < 0 \/ Z.of_nat (List.length (headers model)) <= i)%Z ->
          result (Some i) = filter_rows model query)
    /\ (forall i : Z,
          keys model !! Z.to_nat i = None
          \/ keys model !! Z.to_nat i = Some "" ->
          result (Some i) = filter_rows model query)
    /\ (consistent_collation localeCompare ->
        forall (i : Z) (key : string),
          (0 <= i < Z.of_nat (List.length (headers model)))%Z ->
          keys model !! Z.to_nat i = Some key -> key <> "" ->
          Permutation (result (Some i)) (filter_rows model query)
          /\ sorted_by localeCompare key sortDirection (result (Some i)))
    /\ (consistent_collation localeCompare ->
        (localeCompare "Apple" "Banana" < 0)%Z ->
        (localeCompare "Banana" "Zebra" < 0)%Z ->
        filterAndSortRows localeCompare zebra_model (Some "") (Some 1%Z) "asc"
        = [apple_row; banana_row; zebra_row]
        /\ filterAndSortRows localeCompare zebra_model (Some "") (Some 1%Z)
             "desc"
           = [zebra_row; banana_row; apple_row]).
Proof.
  intros localeCompare model query sortDirection result.
  split; [done|]. split; [|split; [|split]].
  - intros i Hi. subst result. unfold filterAndSortRows.
    by rewrite sort_key_skip.
  - intros i Hi. subst result. unfold filterAndSortRows.
    by rewrite sort_key_unresolved.
  - intros Hlc i key Hi Hk Hne. subst result. simpl.
    split; [apply filterAndSortRows_perm|].
    unfold filterAndSortRows. rewrite (sort_key_resolved model i key) by done.
    by apply row_comparator_sorted.
  - intros [Hanti Htrans] Hab Hbz.
    assert (Haz : (localeCompare "Apple" "Zebra" < 0)%Z).
    { pose proof (Hanti "Apple" "Banana"). pose proof (Hanti "Apple" "Zebra").
      pose proof (Hanti "Zebra" "Apple").
      pose proof (Htrans "Banana" "Zebra" "Apple"). lia. }
    pose proof (Hanti "Apple" "Banana"). pose proof (Hanti "Banana" "Zebra").
    pose proof (Hanti "Apple" "Zebra").
    assert (Hrows : forall dir,
      filterAndSortRows localeCompare zebra_model (Some "") (Some 1%Z) dir
      = sort_insert (row_comparator localeCompare "label" dir) zebra_row
          (sort_insert (row_comparator localeCompare "label" dir) apple_row
             [banana_row])) by reflexivity.
    rewrite !Hrows.
    assert (Hcell : cell zebra_row "label" = "Zebra"
                    /\ cell apple_row "label" = "Apple"
                    /\ cell banana_row "label" = "Banana")
      by (by vm_compute).
    destruct Hcell as (Hz & Ha & Hb).
    assert (Hcmp : forall dir a b,
      row_comparator localeCompare "label" dir a b
      = if String.eqb dir "asc"
        then localeCompare (cell a "label") (cell b "label")
        else (- localeCompare (cell a "label") (cell b "label"))%Z)
      by reflexivity.
    split.
    + cbn [sort_insert]. rewrite Hcmp, Ha, Hb. simpl.
      assert ((localeCompare "Apple" "Banana" <=? 0)%Z = true) as ->
        by (apply Z.leb_le; lia).
      cbn [sort_insert]. rewrite !Hcmp, Hz, Ha, Hb. simpl.
      assert ((localeCompare "Zebra" "Apple" <=? 0)%Z = false) as ->
        by (apply Z.leb_gt; lia).
      assert ((localeCompare "Zebra" "Banana" <=? 0)%Z = false) as ->
        by (apply Z.leb_gt; lia).
      done.
    + cbn [sort_insert]. rewrite Hcmp, Ha, Hb. simpl.
      assert ((- localeCompare "Apple" "Banana" <=? 0)%Z = false) as ->
        by (apply Z.leb_gt; lia).
      cbn [sort_insert]. rewrite !Hcmp, Hz, Hb. simpl.
      assert ((- localeCompare "Zebra" "Banana" <=? 0)%Z = true) as ->
        by (apply Z.leb_le; lia).
      done.
Qed.

Lemma filterAndSortRows_sort_witness :
  filterAndSortRows code_unit_compare zebra_model None (Some 7%Z) "asc"
    = filter_rows zebra_model None
  /\ filterAndSortRows code_unit_compare blank_key_model None (Some 1%Z) "asc"
     = filter_rows blank_key_model None
  /\ (Permutation
        (filterAndSortRows code_unit_compare zebra_model None (Some 1%Z)
           "desc")
        (filter_rows zebra_model None)
      /\ sorted_by code_unit_compare "label" "desc"
           (filterAndSortRows code_unit_compare zebra_model None (Some 1%Z)
              "desc"))
  /\ (filterAndSortRows code_unit_compare zebra_model (Some "") (Some 1%Z)
        "asc" = [apple_row; banana_row; zebra_row]
      /\ filterAndSortRows code_unit_compare zebra_model (Some "") (Some 1%Z)
           "desc" = [zebra_row; banana_row; apple_row]).
Proof.
  split; [|split; [|split]].
  - apply (proj1 (proj2 (filterAndSortRows_sort code_unit_compare zebra_model
                           None "asc")) 7%Z).
    right. simpl. lia.
  - apply (proj1 (proj2 (proj2 (filterAndSortRows_sort code_unit_compare
                                  blank_key_model None "asc"))) 1%Z).
    right. reflexivity.
  - apply (proj1 (proj2 (proj2 (proj2
             (filterAndSortRows_sort code_unit_compare zebra_model None
                "desc"))))
             code_unit_compare_consistent 1%Z "label").
    + simpl. lia.
    + reflexivity.
    + discriminate.
  - apply (proj2 (proj2 (proj2 (proj2
             (filterAndSortRows_sort code_unit_compare zebra_model None
                "asc"))))
             code_unit_compare_consistent).
    + reflexivity.
    + reflexivity.
Defined.

(** The claim as first stated fails: index 1 is in range of the headers of
    [blank_key_model] and resolves to the key [""], yet the rows come back
    in their original order, Zebra before Apple. *)
Lemma filterAndSortRows_blank_key_not_sorted :
  consistent_collation code_unit_compare
  /\ (0 <= 1 < Z.of_nat (List.length (headers blank_key_model)))%Z
  /\ keys blank_key_model !! Z.to_nat 1 = Some ""
  /\ ~ sorted_by code_unit_compare "" "asc"
         (filterAndSortRows code_unit_compare blank_key_model (Some "")
            (Some 1%Z) "asc").
Proof.
  split; [apply code_unit_compare_consistent|].
  split; [simpl; lia|]. split; [reflexivity|].
  intros Hsorted. unfold sorted_by in Hsorted.
  assert (Hres : filterAndSortRows code_unit_compare blank_key_model
                   (Some "") (Some 1%Z) "asc" = rows blank_key_model)
    by reflexivity.
  rewrite Hres in Hsorted. unfold blank_key_model in Hsorted. simpl in Hsorted.
  apply StronglySorted_inv in Hsorted as [_ Hfirst].
  apply List.Forall_inv in Hfirst. vm_compute in Hfirst. by apply Hfirst.
Qed.

(** ** Terms and the store *)

Lemma namedNode_inv (t : Term) :
  termType t = "NamedNode" -> t = namedNode (value t).
Proof. destruct t; simpl; intros H; try discriminate; done. Qed.

Lemma getQuads_all (store : Store) :
  getQuads store None None None None = store.
Proof.
  unfold getQuads. simpl. induction store as [|q store IH]; simpl; [done|].
  by rewrite IH.
Qed.

Lemma is_rdf_type_ontology_spec (q : Quad) :
  is_rdf_type_ontology q = true <-> types_an_ontology q.
Proof.
  unfold is_rdf_type_ontology, types_an_ontology.
  rewrite !andb_true_iff, !String.eqb_eq. split.
  - intros [[[Hpt Hpv] Hot] Hov].
    rewrite (namedNode_inv _ Hpt), (namedNode_inv _ Hot). by rewrite Hpv, Hov.
  - intros [-> ->]. done.
Qed.

(** ** C6: metadata of a store without an ontology *)

(** C6. When no quad of the store types its subject as [owl:Ontology],
    [extractOntologyMetadata] returns the record whose seven fields are all
    [null]; the function is total, so nothing is thrown. *)
Theorem extractOntologyMetadata_no_ontology :
  forall store : Store,
    (forall q, In q store -> ~ types_an_ontology q) ->
    extractOntologyMetadata store = empty_metadata.
Proof.
  intros store Hnone. unfold extractOntologyMetadata, getOntologySubjectIri.
  rewrite getQuads_all.
  assert (List.find is_rdf_type_ontology store = None) as ->; [|done].
  apply find_none_iff. intros q Hq. apply not_true_is_false.
  rewrite is_rdf_type_ontology_spec. by apply Hnone.
Qed.

Lemma extractOntologyMetadata_no_ontology_witness :
  extractOntologyMetadata
    [quad (namedNode "http://example.org/ClassA")
          (namedNode (NS.rdf +:+ "type")) (namedNode (NS.owl +:+ "Class"));
     quad (namedNode "http://example.org/ClassA")
          (namedNode (NS.rdfs +:+ "label")) (literal "Class A" "en")]
  = empty_metadata.
Proof.
  apply extractOntologyMetadata_no_ontology.
  intros q [<-|[<-|[]]] [Hp Ho]; vm_compute in Hp, Ho; discriminate.
Defined.

(** ** The heap: allocation leaves what exists alone *)

Lemma alloc_fresh (o : Mem.Obj) (h : Mem.Heap) :
  exists l, Mem.alloc o h = Some (l, <[l := o]> h) /\ h !! l = None.
Proof.
  exists (fresh (dom h)). split; [done|].
  apply not_elem_of_dom. apply is_fresh.
Qed.

Lemma unchanged_refl (h : Mem.Heap) : Mem.unchanged h h.
Proof. by intros l o. Qed.

Lemma unchanged_trans (h1 h2 h3 : Mem.Heap) :
  Mem.unchanged h1 h2 -> Mem.unchanged h2 h3 -> Mem.unchanged h1 h3.
Proof. intros H12 H23 l o Hl. by apply H23, H12. Qed.

Lemma unchanged_insert_fresh (h : Mem.Heap) (l : Mem.loc) (o : Mem.Obj) :
  h !! l = None -> Mem.unchanged h (<[l := o]> h).
Proof.
  intros Hl l' o' Hl'. rewrite lookup_insert_ne; [done|]. congruence.
Qed.

Lemma unchanged_fresh (h h' : Mem.Heap) (l : Mem.loc) :
  Mem.unchanged h h' -> h' !! l = None -> h !! l = None.
Proof.
  intros Hun Hl. destruct (h !! l) as [o|] eqn:E; [|done].
  apply Hun in E. congruence.
Qed.

Lemma holds_unchanged (h h' : Mem.Heap) (model hs ks rs : Mem.loc)
  (m : TableModel) :
  Mem.holds h model hs ks rs m -> Mem.unchanged h h' ->
  Mem.holds h' model hs ks rs m.
Proof.
  intros (Hm & Hhs & Hks & Hrs) Hun. repeat split; by apply Hun.
Qed.

(** ** The two phases of [filterAndSortRows] on the heap *)

Lemma filter_phase_spec (h : Mem.Heap) (model hs ks rs : Mem.loc)
  (m : TableModel) (query : option string) :
  Mem.holds h model hs ks rs m ->
  exists filtered h1,
    Mem.filter_phase model query h = Some (filtered, h1)
    /\ Mem.unchanged h h1
    /\ h1 !! filtered = Some (Mem.RowArray (filter_rows m query))
    /\ (default "" query = "" -> filtered = rs /\ h1 = h)
    /\ (default "" query <> "" -> h !! filtered = None).
Proof.
  intros (Hm & Hhs & Hks & Hrs).
  unfold Mem.filter_phase, Mem.bind, Mem.get_rows, filter_rows.
  rewrite Hm. destruct (truthy (toLowerCase (default "" query))) eqn:Hq.
  - unfold Mem.array_filter, Mem.bind, Mem.read_rows. rewrite Hrs.
    destruct (alloc_fresh
                (Mem.RowArray
                   (List.filter
                      (row_matches (toLowerCase (default "" query)))
                      (rows m))) h) as (l & -> & Hl).
    eexists _, _. split; [done|].
    split; [by apply unchanged_insert_fresh|].
    split; [apply lookup_insert_eq|]. split; [|done].
    intros He. rewrite He in Hq. discriminate.
  - exists rs, h. split; [done|]. split; [apply unchanged_refl|].
    split; [done|]. split; [done|].
    intros Hne. exfalso. apply Hne. apply toLowerCase_empty_iff.
    unfold truthy in Hq. apply negb_false_iff in Hq.
    by apply String.eqb_eq in Hq.
Qed.

(** Closes a case of [sort_phase] in which the array is returned as it is. *)
Ltac sort_skipped filtered h :=
  exists filtered, h;
  split; [done|]; split; [apply unchanged_refl|];
  split; [done|]; split; [done|]; intros Hc; by destruct Hc.

Lemma sort_phase_spec (localeCompare : string -> string -> Z)
  (h1 : Mem.Heap) (model hs ks rs : Mem.loc) (m : TableModel)
  (sortIndex : option Z) (sortDirection : string) (filtered : Mem.loc)
  (xs : list Row) :
  Mem.holds h1 model hs ks rs m ->
  h1 !! filtered = Some (Mem.RowArray xs) ->
  exists res h2,
    Mem.sort_phase localeCompare model sortIndex sortDirection filtered h1
    = Some (res, h2)
    /\ Mem.unchanged h1 h2
    /\ h2 !! res
       = Some (Mem.RowArray
                 match sort_key m sortIndex with
                 | None => xs
                 | Some key =>
                     array_sort
                       (row_comparator localeCompare key sortDirection) xs
                 end)
    /\ (sort_key m sortIndex = None -> res = filtered /\ h2 = h1)
    /\ (sort_key m sortIndex <> None -> h1 !! res = None).
Proof.
  intros (Hm & Hhs & Hks & Hrs) Hxs.
  unfold Mem.sort_phase, sort_key.
  destruct sortIndex as [i|]; [|sort_skipped filtered h1].
  unfold Mem.bind, Mem.get_headers, Mem.get_keys, Mem.read_strings.
  rewrite Hm, Hhs.
  destruct ((i <? 0)%Z || (Z.of_nat (List.length (headers m)) <=? i)%Z);
    [sort_skipped filtered h1|].
  rewrite Hm, Hks.
  destruct (keys m !! Z.to_nat i) as [key|]; [|sort_skipped filtered h1].
  destruct (truthy key); simpl; [|sort_skipped filtered h1].
  unfold Mem.array_spread, Mem.bind, Mem.read_rows. rewrite Hxs.
  destruct (alloc_fresh (Mem.RowArray xs) h1) as (l & -> & Hl).
  unfold Mem.array_sort_in_place, Mem.bind, Mem.read_rows, Mem.write_rows,
    Mem.ret.
  rewrite !lookup_insert_eq. rewrite insert_insert_eq.
  eexists _, _. split; [done|].
  split; [by apply unchanged_insert_fresh|].
  split; [apply lookup_insert_eq|]. done.
Qed.

(** ** C7: the input model is left alone *)

(** C7 (amended). On a heap that holds the model, [filterAndSortRows]
    returns an array and changes no object that existed before the call:
    the model object and its headers, keys and rows arrays are as they
    were, row order included.  The returned array holds the rows that the
    value-level function computes.  It is a newly allocated array when the
    query is not empty or the rows get sorted; when the query is empty and
    sorting is skipped, it is the rows array of the model itself. *)
Theorem filterAndSortRows_frame :
  forall (localeCompare : string -> string -> Z) (h : Mem.Heap)
         (model hs ks rs : Mem.loc) (m : TableModel)
         (query : option string) (sortIndex : option Z)
         (sortDirection : string),
    Mem.holds h model hs ks rs m ->
    exists res h',
      Mem.filterAndSortRows localeCompare model query sortIndex
        sortDirection h = Some (res, h')
      /\ Mem.unchanged h h'
      /\ Mem.holds h' model hs ks rs m
      /\ h' !! res
         = Some (Mem.RowArray
                   (filterAndSortRows localeCompare m query sortIndex
                      sortDirection))
      /\ (default "" query = "" -> sort_key m sortIndex = None ->
          res = rs /\ h' = h)
      /\ (default "" query <> "" \/ sort_key m sortIndex <> None ->
          h !! res = None).
Proof.
  intros localeCompare h model hs ks rs m query sortIndex sortDirection Hh.
  destruct (filter_phase_spec h model hs ks rs m query Hh)
    as (filtered & h1 & Hrun1 & Hun1 & Hf & Hsame1 & Hnew1).
  pose proof (holds_unchanged _ _ _ _ _ _ _ Hh Hun1) as Hh1.
  destruct (sort_phase_spec localeCompare h1 model hs ks rs m sortIndex
              sortDirection filtered _ Hh1 Hf)
    as (res & h2 & Hrun2 & Hun2 & Hres & Hsame2 & Hnew2).
  exists res, h2.
  split; [by unfold Mem.filterAndSortRows, Mem.bind; rewrite Hrun1|].
  split; [by eapply unchanged_trans|].
  split; [by eapply holds_unchanged, Hun2|].
  split; [exact Hres|]. split.
  - intros Hq Hk. destruct (Hsame1 Hq) as [-> ->].
    by destruct (Hsame2 Hk) as [-> ->].
  - intros Hor.
    destruct (sort_key m sortIndex) as [key|] eqn:Hk.
    + eapply unchanged_fresh; [exact Hun1|]. by apply Hnew2.
    + destruct (Hsame2 eq_refl) as [-> ->].
      destruct Hor as [Hq|Hc]; [by apply Hnew1 | done].
Qed.

Lemma zebra_heap_holds :
  Mem.holds (Mem.zebra_heap zebra_model) 4%positive 1%positive 2%positive
    3%positive zebra_model.
Proof. repeat split. Qed.

Lemma filterAndSortRows_frame_witness :
  exists res h',
    Mem.filterAndSortRows code_unit_compare 4%positive (Some "an")
      (Some 1%Z) "asc" (Mem.zebra_heap zebra_model) = Some (res, h')
    /\ Mem.unchanged (Mem.zebra_heap zebra_model) h'
    /\ h' !! res
       = Some (Mem.RowArray
                 (filterAndSortRows code_unit_compare zebra_model
                    (Some "an") (Some 1%Z) "asc"))
    /\ Mem.zebra_heap zebra_model !! res = None.
Proof.
  destruct (filterAndSortRows_frame code_unit_compare
              (Mem.zebra_heap zebra_model) 4%positive 1%positive 2%positive
              3%positive zebra_model (Some "an") (Some 1%Z) "asc"
              zebra_heap_holds)
    as (res & h' & Hrun & Hun & _ & Hres & _ & Hnew).
  exists res, h'. split; [exact Hrun|]. split; [exact Hun|].
  split; [exact Hres|]. apply Hnew. left. discriminate.
Defined.

(** The claim as first stated fails: with the empty query and no sort index
    the call returns location 3, the rows array of the model, which was in
    the heap before the call; no array is allocated. *)
Lemma filterAndSortRows_returns_model_rows :
  Mem.holds (Mem.zebra_heap zebra_model) 4%positive 1%positive 2%positive
    3%positive zebra_model
  /\ Mem.filterAndSortRows code_unit_compare 4%positive (Some "") None "asc"
       (Mem.zebra_heap zebra_model)
     = Some (3%positive, Mem.zebra_heap zebra_model)
  /\ ~ returns_new_array code_unit_compare (Mem.zebra_heap zebra_model)
         4%positive (Some "") None "asc".
Proof.
  split; [apply zebra_heap_holds|]. split; [reflexivity|].
  intros (res & h' & Hrun & Hnew & _).
  assert (res = 3%positive) as -> by (vm_compute in Hrun; congruence).
  vm_compute in Hnew. discriminate.
Qed.

(** ** Strings: suffixes *)

Lemma substring_all (s : string) : substring 0 (String.length s) s = s.
Proof. induction s as [|c s IH]; simpl; [done | by rewrite IH]. Qed.

Lemma substring_skip (p s : string) (m : nat) :
  substring (String.length p) m (p +:+ s) = substring 0 m s.
Proof.
  induction p as [|c p IH]; [done|]. rewrite append_cons. exact IH.
Qed.

Lemma substring_split (s : string) (k : nat) :
  k <= String.length s ->
  s = substring 0 k s +:+ substring k (String.length s - k) s.
Proof.
  revert k. induction s as [|c s IH]; intros k Hk; simpl in *.
  - assert (k = 0) as -> by lia. done.
  - destruct k as [|k]; simpl.
    + by rewrite substring_all.
    + rewrite append_cons. f_equal. apply IH. lia.
Qed.

Lemma endsWith_iff (s suffix : string) :
  endsWith s suffix = true <-> exists stem, s = stem +:+ suffix.
Proof.
  unfold endsWith. rewrite andb_true_iff, Nat.leb_le, String.eqb_eq. split.
  - intros [Hle Hsub].
    exists (substring 0 (String.length s - String.length suffix) s).
    pose proof (substring_split s
                  (String.length s - String.length suffix)) as Hs.
    replace (String.length s - (String.length s - String.length suffix))
      with (String.length suffix) in Hs by lia.
    rewrite Hsub in Hs. apply Hs. lia.
  - intros [stem ->]. rewrite string_length_app. split; [lia|].
    replace (String.length stem + String.length suffix - String.length suffix)
      with (String.length stem) by lia.
    rewrite substring_skip. apply substring_all.
Qed.

Lemma last_char_app (stem s : string) :
  s <> "" -> last_char (stem +:+ s) = last_char s.
Proof.
  intros Hs. induction stem as [|c stem IH]; [done|].
  rewrite append_cons. simpl. rewrite IH.
  destruct (stem +:+ s) eqn:E; [|done].
  destruct stem, s; try done; rewrite append_cons in E; discriminate.
Qed.

Lemma endsWith_last_char (s suffix : string) :
  suffix <> "" -> endsWith s suffix = true ->
  last_char s = last_char suffix.
Proof.
  intros Hne [stem ->]%endsWith_iff. by apply last_char_app.
Qed.

(** Two suffixes with different last characters exclude each other. *)
Lemma endsWith_exclusive (s a b : string) :
  a <> "" -> b <> "" -> last_char a <> last_char b ->
  endsWith s a = true -> endsWith s b = false.
Proof.
  intros Ha Hb Hab Hsa. destruct (endsWith s b) eqn:Hsb; [|done].
  apply endsWith_last_char in Hsa, Hsb; congruence.
Qed.

(** ** C8: format detection *)

(** C8. [detectRdfFormatFromFilename] maps the extensions .ttl and .n3 to
    text/turtle, .nt to application/n-triples, .nq to application/n-quads,
    .trig to application/trig, and every other file name (the missing one
    included) to text/turtle; it returns on every input. *)
Theorem detectRdfFormatFromFilename_table :
  forall filename : option string,
    let name := default "" filename in
    (has_extension name ".ttl" \/ has_extension name ".n3" ->
       detectRdfFormatFromFilename filename = "text/turtle") /\
    (has_extension name ".nt" ->
       detectRdfFormatFromFilename filename = "application/n-triples") /\
    (has_extension name ".nq" ->
       detectRdfFormatFromFilename filename = "application/n-quads") /\
    (has_extension name ".trig" ->
       detectRdfFormatFromFilename filename = "application/trig") /\
    (~ has_extension name ".ttl" -> ~ has_extension name ".n3" ->
     ~ has_extension name ".nt" -> ~ has_extension name ".nq" ->
     ~ has_extension name ".trig" ->
       detectRdfFormatFromFilename filename = "text/turtle").
Proof.
  intros filename name. unfold has_extension, detectRdfFormatFromFilename.
  fold name. setoid_rewrite <- endsWith_iff.
  set (lower := toLowerCase name).
  assert (Hex : forall a b, a <> "" -> b <> "" ->
            last_char a <> last_char b ->
            endsWith lower a = true -> endsWith lower b = false)
    by (intros a b; apply endsWith_exclusive).
  repeat split.
  - intros [-> | ->]; [done | by rewrite orb_true_r].
  - intros H.
    rewrite (Hex ".nt" ".ttl"), (Hex ".nt" ".n3"), H; done.
  - intros H.
    rewrite (Hex ".nq" ".ttl"), (Hex ".nq" ".n3"), (Hex ".nq" ".nt"), H; done.
  - intros H.
    rewrite (Hex ".trig" ".ttl"), (Hex ".trig" ".n3"), (Hex ".trig" ".nt"),
      (Hex ".trig" ".nq"), H; done.
  - intros H1 H2 H3 H4 H5.
    apply not_true_is_false in H1, H2, H3, H4, H5.
    by rewrite H1, H2, H3, H4, H5.
Qed.

Lemma detectRdfFormatFromFilename_table_witness :
  detectRdfFormatFromFilename (Some "example.TTL") = "text/turtle"
  /\ detectRdfFormatFromFilename (Some "data.nt") = "application/n-triples"
  /\ detectRdfFormatFromFilename (Some "data.Nq") = "application/n-quads"
  /\ detectRdfFormatFromFilename (Some "graphs.trig") = "application/trig"
  /\ detectRdfFormatFromFilename (Some "weird.ext") = "text/turtle".
Proof.
  assert (Hno : forall s suffix, endsWith (toLowerCase s) suffix = false ->
            ~ has_extension s suffix).
  { intros s suffix H Hext. apply endsWith_iff in Hext. congruence. }
  split; [|split; [|split; [|split]]].
  - apply (proj1 (detectRdfFormatFromFilename_table (Some "example.TTL"))).
    left. by exists "example".
  - apply (proj1 (proj2 (detectRdfFormatFromFilename_table (Some "data.nt")))).
    by exists "data".
  - apply (proj1 (proj2 (proj2
             (detectRdfFormatFromFilename_table (Some "data.Nq"))))).
    by exists "data".
  - apply (proj1 (proj2 (proj2 (proj2
             (detectRdfFormatFromFilename_table (Some "graphs.trig")))))).
    by exists "graphs".
  - apply (proj2 (proj2 (proj2 (proj2
             (detectRdfFormatFromFilename_table (Some "weird.ext"))))));
      apply Hno; reflexivity.
Defined.

(** ** C9: an empty-string literal ends the search *)

Lemma pickBestLiteral_some (literals : list Term) :
  literals <> [] ->
  exists best, pickBestLiteral literals = Some best /\ In best literals.
Proof.
  destruct literals as [|first rest]; [done|]. intros _.
  unfold pickBestLiteral.
  destruct (List.find _ (List.filter _ _)) as [en|] eqn:Hen.
  - exists en. split; [done|].
    apply List.find_some in Hen as [Hen _].
    by apply List.filter_In in Hen as [Hen _].
  - destruct (List.find _ (first :: rest)) as [noLang|] eqn:Hno.
    + exists noLang. split; [done|]. by apply List.find_some in Hno as [Hno _].
    + exists first. split; [done | by left].
Qed.

Lemma preferred_literal_loop_skip (subjectQuads : list Quad)
  (pre rest : list string) :
  (forall p, In p pre -> literal_objects subjectQuads p = []) ->
  preferred_literal_loop subjectQuads (pre ++ rest)
  = preferred_literal_loop subjectQuads rest.
Proof.
  induction pre as [|p pre IH]; simpl; intros Hpre; [done|].
  rewrite (Hpre p (or_introl eq_refl)). simpl. apply IH.
  intros p' Hp'. apply Hpre. by right.
Qed.

(** C9. If the first candidate predicate that has any literal object for
    the subject has only literals whose value is the empty string, then
    [getPreferredLiteralForPredicates] returns the empty string, whatever
    the candidates after it carry. *)
Theorem getPreferredLiteralForPredicates_stops_at_empty :
  forall (store : Store) (subjectIri : string) (pre : list string)
         (p : string) (post : list string),
    let subjectQuads := getQuadsForSubject store subjectIri in
    (forall p', In p' pre -> literal_objects subjectQuads p' = []) ->
    literal_objects subjectQuads p <> [] ->
    (forall l, In l (literal_objects subjectQuads p) -> value l = "") ->
    getPreferredLiteralForPredicates store subjectIri (pre ++ p :: post)
    = Some "".
Proof.
  intros store subjectIri pre p post subjectQuads Hpre Hne Hempty.
  unfold getPreferredLiteralForPredicates. fold subjectQuads.
  rewrite (preferred_literal_loop_skip _ _ _ Hpre). simpl.
  destruct (pickBestLiteral_some _ Hne) as (best & -> & Hin).
  by rewrite (Hempty best Hin).
Qed.

Lemma getPreferredLiteralForPredicates_stops_at_empty_witness :
  getPreferredLiteralForPredicates
    [quad (namedNode "http://example.org/ClassA")
          (namedNode (NS.dcterms +:+ "title")) (literal "Class A Title" "en");
     quad (namedNode "http://example.org/ClassA")
          (namedNode (NS.rdfs +:+ "label")) (literal "" "en")]
    "http://example.org/ClassA"
    ([] ++ (NS.rdfs +:+ "label") :: [NS.dcterms +:+ "title"; NS.dc +:+ "title"])
  = Some "".
Proof.
  apply getPreferredLiteralForPredicates_stops_at_empty.
  - intros p' [].
  - vm_compute. discriminate.
  - vm_compute. intros l [<-|[]]. reflexivity.
Defined.

(** ** C10: export file names *)

Lemma replace_in_run_no_alnum (s : string) :
  no_alnum s -> replace_non_alnum_runs true s = "".
Proof.
  induction s as [|c s IH]; simpl; [done|].
  intros [-> Hs]. by apply IH.
Qed.

Lemma replace_no_alnum (s : string) :
  s <> "" -> no_alnum s -> replace_non_alnum_runs false s = " ".
Proof.
  destruct s as [|c s]; [done|]. simpl. intros _ [-> Hs].
  by rewrite replace_in_run_no_alnum.
Qed.

Lemma split_space_runs_nonempty (in_run : bool) (cur s : string) :
  split_space_runs in_run cur s <> [].
Proof.
  revert in_run cur. induction s as [|c s IH]; intros in_run cur; simpl.
  - discriminate.
  - destruct (is_space c); [destruct in_run|]; try apply IH; discriminate.
Qed.

(** C10. On a non-empty name without any character of [A-Za-z0-9],
    [toPascalCase] returns the empty string, not "Ontology".  The list of
    parts is never empty, so the guard on its length never fires: the
    fallback branch is taken for a missing or empty name only, and every
    other name yields the capitalised parts joined. *)
Theorem toPascalCase_non_alnum_is_empty :
  (forall s : string, s <> "" -> no_alnum s -> toPascalCase (Some s) = "") /\
  (forall s : string, pascal_parts s <> []) /\
  toPascalCase None = "Ontology" /\
  toPascalCase (Some "") = "Ontology" /\
  (forall s : string, s <> "" ->
     toPascalCase (Some s) = join "" (List.map capitalize (pascal_parts s))).
Proof.
  assert (Hparts : forall s, pascal_parts s <> [])
    by (intros s; apply split_space_runs_nonempty).
  assert (Hjoin : forall s : string, s <> "" ->
     toPascalCase (Some s) = join "" (List.map capitalize (pascal_parts s))).
  { intros s Hs. unfold toPascalCase, truthy.
    apply String.eqb_neq in Hs. rewrite Hs. simpl.
    specialize (Hparts s). by destruct (pascal_parts s). }
  split; [|split; [|split; [|split]]]; try done.
  intros s Hs Hna. rewrite (Hjoin s Hs). unfold pascal_parts.
  by rewrite (replace_no_alnum s Hs Hna).
Qed.

Lemma toPascalCase_non_alnum_is_empty_witness :
  toPascalCase (Some "---") = ""
  /\ toPascalCase (Some "example-ontology_name.foo")
     = join "" (List.map capitalize
                  (pascal_parts "example-ontology_name.foo")).
Proof.
  split.
  - apply (proj1 toPascalCase_non_alnum_is_empty "---");
      [discriminate | by vm_compute].
  - apply (proj2 (proj2 (proj2 (proj2 toPascalCase_non_alnum_is_empty)))).
    discriminate.
Defined.

(** ** The parts that get capitalised are alphanumeric

    [capitalize] upper-cases the first character of a part; the parts only
    hold characters of [A-Za-z0-9], on which [upper_char] is the upper-case
    mapping of JavaScript. *)

Lemma replace_non_alnum_runs_chars (in_run : bool) (s : string) :
  all_chars alnum_or_blank (replace_non_alnum_runs in_run s).
Proof.
  revert in_run. induction s as [|c s IH]; intros in_run; simpl; [done|].
  destruct (is_alnum c) eqn:Hc; simpl.
  - split; [by left | apply IH].
  - destruct in_run; simpl; [apply IH|]. split; [by right | apply IH].
Qed.

Lemma trimStart_chars (P : ascii -> Prop) (s : string) :
  all_chars P s -> all_chars P (trimStart s).
Proof.
  induction s as [|c s IH]; simpl; [done|]. intros [Hc Hs].
  destruct (is_space c); [by apply IH | done].
Qed.

Lemma trimEnd_chars (P : ascii -> Prop) (s : string) :
  all_chars P s -> all_chars P (trimEnd s).
Proof.
  induction s as [|c s IH]; simpl; [done|]. intros [Hc Hs].
  destruct (is_space c && String.eqb (trimEnd s) ""); simpl; [done|].
  split; [done | by apply IH].
Qed.

Lemma all_chars_snoc (P : ascii -> Prop) (s : string) (c : ascii) :
  all_chars P s -> P c -> all_chars P (s +:+ String c "").
Proof.
  induction s as [|d s IH]; intros Hs Hc.
  - by split.
  - rewrite append_cons. destruct Hs as [Hd Hs]. split; [done | by apply IH].
Qed.

Lemma split_space_runs_chars (in_run : bool) (cur s : string) :
  all_chars alnum_or_blank s ->
  all_chars (fun c => is_alnum c = true) cur ->
  forall p, In p (split_space_runs in_run cur s) ->
            all_chars (fun c => is_alnum c = true) p.
Proof.
  revert in_run cur. induction s as [|c s IH]; intros in_run cur Hs Hcur p;
    simpl.
  - by intros [<-|[]].
  - destruct Hs as [Hc Hs]. destruct (is_space c) eqn:Hsp.
    + destruct in_run; simpl.
      * by apply IH.
      * intros [<-|Hp]; [done|]. revert Hp. by apply IH.
    + apply IH; [done|]. apply all_chars_snoc; [done|].
      destruct Hc as [Hc | ->]; [done | discriminate].
Qed.

Lemma pascal_parts_alnum (name p : string) :
  In p (pascal_parts name) -> all_chars (fun c => is_alnum c = true) p.
Proof.
  unfold pascal_parts, trim. apply split_space_runs_chars; [|done].
  apply trimEnd_chars, trimStart_chars, replace_non_alnum_runs_chars.
Qed.

(** * Further properties of the code *)

(** ** Strings: more on [append] *)

Lemma append_empty_r (s : string) : s +:+ "" = s.
Proof.
  induction s as [|c s IH]; [done|]. rewrite append_cons. by rewrite IH.
Qed.

Lemma append_assoc (s t u : string) : (s +:+ t) +:+ u = s +:+ t +:+ u.
Proof.
  induction s as [|c s IH]; [done|]. rewrite !append_cons. by rewrite IH.
Qed.

(** ** The quads of a subject *)

Lemma getQuadsForSubject_In (store : Store) (s : string) (q : Quad) :
  In q (getQuadsForSubject store s) <-> In q store /\ subject q = namedNode s.
Proof.
  unfold getQuadsForSubject. rewrite getQuads_all, List.filter_In.
  rewrite andb_true_iff, !String.eqb_eq. split.
  - intros [Hq [Ht Hv]]. split; [done|].
    by rewrite (namedNode_inv _ Ht), Hv.
  - intros [Hq ->]. done.
Qed.

Lemma getQuadsForSubject_app (store1 store2 : Store) (s : string) :
  getQuadsForSubject (store1 ++ store2) s
  = getQuadsForSubject store1 s ++ getQuadsForSubject store2 s.
Proof.
  unfold getQuadsForSubject. rewrite !getQuads_all. apply List.filter_app.
Qed.

Lemma getQuadsForSubject_other (q : Quad) (s : string) :
  subject q <> namedNode s -> getQuadsForSubject [q] s = [].
Proof.
  intros Hq. unfold getQuadsForSubject. rewrite getQuads_all. simpl.
  destruct (String.eqb (termType (subject q)) "NamedNode") eqn:Ht; [|done].
  destruct (String.eqb (value (subject q)) s) eqn:Hv; [|done].
  apply String.eqb_eq in Ht, Hv. exfalso. apply Hq.
  by rewrite (namedNode_inv _ Ht), Hv.
Qed.

Lemma literal_objects_In (store : Store) (s p : string) (o : Term) :
  In o (literal_objects (getQuadsForSubject store s) p)
  <-> termType o = "Literal" /\ has_triple store s p o.
Proof.
  unfold literal_objects, has_triple. rewrite List.in_map_iff. split.
  - intros (q & <- & Hq). apply List.filter_In in Hq as [Hq Htest].
    apply getQuadsForSubject_In in Hq as [Hq Hs].
    rewrite !andb_true_iff, !String.eqb_eq in Htest.
    destruct Htest as [[Hpt Hpv] Hot]. split; [done|].
    exists q. repeat split; try done.
    by rewrite (namedNode_inv _ Hpt), Hpv.
  - intros (Hot & q & Hq & Hs & Hp & <-). exists q. split; [done|].
    apply List.filter_In. split; [by apply getQuadsForSubject_In|].
    rewrite Hp, Hot. simpl. by rewrite String.eqb_refl.
Qed.

Lemma iri_objects_In (store : Store) (s p : string) (o : Term) :
  In o (iri_objects (getQuadsForSubject store s) p)
  <-> termType o = "NamedNode" /\ has_triple store s p o.
Proof.
  unfold iri_objects, has_triple. rewrite List.in_map_iff. split.
  - intros (q & <- & Hq). apply List.filter_In in Hq as [Hq Htest].
    apply getQuadsForSubject_In in Hq as [Hq Hs].
    rewrite !andb_true_iff, !String.eqb_eq in Htest.
    destruct Htest as [[Hpt Hpv] Hot]. split; [done|].
    exists q. repeat split; try done.
    by rewrite (namedNode_inv _ Hpt), Hpv.
  - intros (Hot & q & Hq & Hs & Hp & <-). exists q. split; [done|].
    apply List.filter_In. split; [by apply getQuadsForSubject_In|].
    rewrite Hp, Hot. simpl. by rewrite String.eqb_refl.
Qed.

Lemma literal_inv (t : Term) :
  termType t = "Literal" -> t = literal (value t) (language t).
Proof. destruct t; simpl; intros H; try discriminate; done. Qed.

(** ** The single-value accessors *)

Lemma pickBestLiteral_none (literals : list Term) :
  pickBestLiteral literals = None <-> literals = [].
Proof.
  split; [|by intros ->].
  destruct literals as [|first rest]; [done|]. intros Hnone.
  destruct (pickBestLiteral_some (first :: rest)) as (best & Hbest & _);
    [done | congruence].
Qed.

Lemma preferred_literal_loop_none (subjectQuads : list Quad)
  (preds : list string) :
  preferred_literal_loop subjectQuads preds = None
  <-> forall p, In p preds -> literal_objects subjectQuads p = [].
Proof.
  induction preds as [|p preds IH]; simpl.
  - split; [by intros _ p [] | done].
  - destruct (pickBestLiteral (literal_objects subjectQuads p)) as [best|]
      eqn:Hbest.
    + split; [done|]. intros Hall.
      specialize (Hall p (or_introl eq_refl)). rewrite Hall in Hbest.
      discriminate.
    + apply pickBestLiteral_none in Hbest. rewrite IH. split.
      * intros Hall p' [<-|Hp']; [done | by apply Hall].
      * intros Hall p' Hp'. apply Hall. by right.
Qed.

Lemma preferred_literal_loop_some (subjectQuads : list Quad)
  (preds : list string) (v : string) :
  preferred_literal_loop subjectQuads preds = Some v ->
  exists p best, In p preds /\ In best (literal_objects subjectQuads p)
                 /\ value best = v.
Proof.
  induction preds as [|p preds IH]; simpl; [done|].
  destruct (pickBestLiteral (literal_objects subjectQuads p)) as [best|]
    eqn:Hbest.
  - intros [= <-]. exists p, best. split; [by left|]. split; [|done].
    destruct (literal_objects subjectQuads p) as [|first rest] eqn:Hl;
      [done|].
    destruct (pickBestLiteral_some (first :: rest)) as (b & Hb & Hin);
      [done|].
    rewrite Hb in Hbest. by inversion Hbest; subst.
  - intros Hv. destruct (IH Hv) as (p' & b & Hp' & Hb & Hval).
    exists p', b. split; [by right | done].
Qed.

(** X1. [getPreferredLiteralForPredicates] returns nothing exactly when the
    subject has no literal object for any of the candidate predicates, and
    a value it returns is the value of a literal that the store states for
    the subject with one of those predicates. *)
Theorem getPreferredLiteralForPredicates_sound :
  forall (store : Store) (s : string) (preds : list string),
    (getPreferredLiteralForPredicates store s preds = None <->
     forall p o, In p preds -> has_triple store s p o ->
                 termType o <> "Literal")
    /\ (forall v, getPreferredLiteralForPredicates store s preds = Some v ->
          exists p lang, In p preds /\ has_triple store s p (literal v lang)).
Proof.
  intros store s preds. unfold getPreferredLiteralForPredicates. split.
  - rewrite preferred_literal_loop_none. split.
    + intros Hall p o Hp Ho Hlit.
      assert (In o (literal_objects (getQuadsForSubject store s) p))
        as Hin by (by apply literal_objects_In).
      rewrite (Hall p Hp) in Hin. done.
    + intros Hall p Hp.
      destruct (literal_objects (getQuadsForSubject store s) p)
        as [|o l] eqn:Hl; [done|].
      assert (In o (literal_objects (getQuadsForSubject store s) p))
        as Hin by (rewrite Hl; by left).
      apply literal_objects_In in Hin as [Hlit Ho].
      by destruct (Hall p o Hp Ho).
  - intros v Hv.
    apply preferred_literal_loop_some in Hv as (p & best & Hp & Hin & <-).
    apply literal_objects_In in Hin as [Hlit Ho].
    exists p, (language best). split; [done|].
    by rewrite <- (literal_inv _ Hlit).
Qed.

Lemma getPreferredLiteralForPredicates_sound_witness :
  exists p lang,
    In p [NS.rdfs +:+ "label"; NS.dcterms +:+ "title"]
    /\ has_triple example_store "http://example.org/ClassA" p
         (literal "Class A Label" lang).
Proof.
  apply (proj2 (getPreferredLiteralForPredicates_sound example_store
                  "http://example.org/ClassA"
                  [NS.rdfs +:+ "label"; NS.dcterms +:+ "title"])).
  reflexivity.
Defined.

Lemma preferred_iri_loop_none (subjectQuads : list Quad)
  (preds : list string) :
  preferred_iri_loop subjectQuads preds = None
  <-> forall p, In p preds -> iri_objects subjectQuads p = [].
Proof.
  induction preds as [|p preds IH]; simpl.
  - split; [by intros _ p [] | done].
  - destruct (iri_objects subjectQuads p) as [|o l] eqn:Hl; simpl.
    + rewrite IH. split.
      * intros Hall p' [<-|Hp']; [done | by apply Hall].
      * intros Hall p' Hp'. apply Hall. by right.
    + split; [done|]. intros Hall.
      specialize (Hall p (or_introl eq_refl)). congruence.
Qed.

Lemma preferred_iri_loop_skip (subjectQuads : list Quad)
  (pre rest : list string) :
  (forall p, In p pre -> iri_objects subjectQuads p = []) ->
  preferred_iri_loop subjectQuads (pre ++ rest)
  = preferred_iri_loop subjectQuads rest.
Proof.
  induction pre as [|p pre IH]; simpl; intros Hpre; [done|].
  rewrite (Hpre p (or_introl eq_refl)). simpl. apply IH.
  intros p' Hp'. apply Hpre. by right.
Qed.

Lemma preferred_iri_loop_some (subjectQuads : list Quad)
  (preds : list string) (v : string) :
  preferred_iri_loop subjectQuads preds = Some v ->
  exists p o, In p preds /\ In o (iri_objects subjectQuads p) /\ value o = v.
Proof.
  induction preds as [|p preds IH]; simpl; [done|].
  destruct (iri_objects subjectQuads p) as [|o l] eqn:Hl; simpl.
  - intros Hv. destruct (IH Hv) as (p' & o & Hp' & Ho & Hval).
    exists p', o. split; [by right | done].
  - intros [= <-]. exists p, o. split; [by left|]. split; [|done].
    rewrite Hl. by left.
Qed.

Lemma iri_objects_none (store : Store) (s p : string) :
  iri_objects (getQuadsForSubject store s) p = []
  <-> forall o, has_triple store s p o -> termType o <> "NamedNode".
Proof.
  split.
  - intros Hnil o Ho Hnn.
    assert (In o (iri_objects (getQuadsForSubject store s) p)) as Hin
      by (by apply iri_objects_In).
    rewrite Hnil in Hin. done.
  - intros Hall.
    destruct (iri_objects (getQuadsForSubject store s) p) as [|o l] eqn:Hl;
      [done|].
    assert (In o (iri_objects (getQuadsForSubject store s) p)) as Hin
      by (rewrite Hl; by left).
    apply iri_objects_In in Hin as [Hnn Ho]. by destruct (Hall o Ho).
Qed.

(** The first named-node object of [(s, p)] in store order heads
    [iri_objects]. *)
Lemma iri_objects_first (before after : Store) (q : Quad) (s p v : string) :
  subject q = namedNode s -> predicate q = namedNode p ->
  object q = namedNode v ->
  (forall q', In q' before ->
     ~ (subject q' = namedNode s /\ predicate q' = namedNode p
        /\ termType (object q') = "NamedNode")) ->
  List.head (iri_objects (getQuadsForSubject (before ++ q :: after) s) p)
  = Some (namedNode v).
Proof.
  intros Hs Hp Ho Hbefore.
  rewrite getQuadsForSubject_app. unfold iri_objects.
  rewrite List.filter_app, List.map_app.
  assert (List.filter
            (fun q0 => String.eqb (termType (predicate q0)) "NamedNode"
                       && String.eqb (value (predicate q0)) p
                       && String.eqb (termType (object q0)) "NamedNode")
            (getQuadsForSubject before s) = []) as ->.
  { destruct (List.filter _ (getQuadsForSubject before s)) as [|q' l] eqn:Hl;
      [done|].
    assert (In q' (q' :: l)) as Hin by (by left). rewrite <- Hl in Hin.
    apply List.filter_In in Hin as [Hin Htest].
    apply getQuadsForSubject_In in Hin as [Hin Hs'].
    rewrite !andb_true_iff, !String.eqb_eq in Htest.
    destruct Htest as [[Hpt Hpv] Hot].
    destruct (Hbefore q' Hin). repeat split; try done.
    by rewrite (namedNode_inv _ Hpt), Hpv. }
  simpl. change (q :: after) with ([q] ++ after).
  rewrite getQuadsForSubject_app.
  assert (getQuadsForSubject [q] s = [q]) as ->.
  { unfold getQuadsForSubject. rewrite getQuads_all. simpl.
    by rewrite Hs; simpl; rewrite String.eqb_refl. }
  simpl. rewrite Hp, Ho. simpl. rewrite String.eqb_refl. simpl.
  by rewrite Ho.
Qed.

(** X2. [getPreferredIriForPredicates] returns nothing exactly when the
    subject has no named-node object for any candidate predicate; a value it
    returns is a named-node object that the store states for the subject
    with one of the candidates; and the value is that of the first such quad
    in store order for the first candidate that has one. *)
Theorem getPreferredIriForPredicates_sound :
  forall (store : Store) (s : string) (preds : list string),
    (getPreferredIriForPredicates store s preds = None <->
     forall p o, In p preds -> has_triple store s p o ->
                 termType o <> "NamedNode")
    /\ (forall v, getPreferredIriForPredicates store s preds = Some v ->
          exists p, In p preds /\ has_triple store s p (namedNode v))
    /\ (forall (pre post : list string) (p v : string)
               (before after : Store) (q : Quad),
          preds = pre ++ p :: post ->
          (forall p' o, In p' pre -> has_triple store s p' o ->
                        termType o <> "NamedNode") ->
          store = before ++ q :: after ->
          subject q = namedNode s -> predicate q = namedNode p ->
          object q = namedNode v ->
          (forall q', In q' before ->
             ~ (subject q' = namedNode s /\ predicate q' = namedNode p
                /\ termType (object q') = "NamedNode")) ->
          getPreferredIriForPredicates store s preds = Some v).
Proof.
  intros store s preds. unfold getPreferredIriForPredicates.
  split; [|split].
  - rewrite preferred_iri_loop_none. split.
    + intros Hall p o Hp. by apply iri_objects_none, Hall.
    + intros Hall p Hp. apply iri_objects_none. intros o. by apply Hall.
  - intros v Hv.
    apply preferred_iri_loop_some in Hv as (p & o & Hp & Hin & <-).
    apply iri_objects_In in Hin as [Hnn Ho]. exists p. split; [done|].
    by rewrite <- (namedNode_inv _ Hnn).
  - intros pre post p v before after q -> Hpre -> Hs Hp Ho Hbefore.
    rewrite preferred_iri_loop_skip.
    + simpl. by rewrite (iri_objects_first before after q s p v).
    + intros p' Hp'. apply iri_objects_none. intros o. by apply Hpre.
Qed.

Lemma getPreferredIriForPredicates_sound_witness :
  (exists p, In p [NS.rdfs +:+ "isDefinedBy"; NS.rdfs +:+ "subClassOf"]
             /\ has_triple example_store "http://example.org/ClassA" p
                  (namedNode "http://example.org/ParentClass"))
  /\ getPreferredIriForPredicates example_store "http://example.org/ClassA"
       [NS.rdfs +:+ "isDefinedBy"; NS.rdf +:+ "type"]
     = Some (NS.owl +:+ "Class").
Proof.
  split.
  - apply (proj1 (proj2 (getPreferredIriForPredicates_sound example_store
                           "http://example.org/ClassA"
                           [NS.rdfs +:+ "isDefinedBy";
                            NS.rdfs +:+ "subClassOf"]))).
    reflexivity.
  - apply (proj2 (proj2 (getPreferredIriForPredicates_sound example_store
                           "http://example.org/ClassA"
                           [NS.rdfs +:+ "isDefinedBy"; NS.rdf +:+ "type"]))
             [NS.rdfs +:+ "isDefinedBy"] [] (NS.rdf +:+ "type")
             (NS.owl +:+ "Class") []
             (List.tl example_store)
             (quad (namedNode "http://example.org/ClassA")
                (namedNode (NS.rdf +:+ "type"))
                (namedNode (NS.owl +:+ "Class")))).
    + reflexivity.
    + intros p' o [<-|[]] (q & Hq & Hs & Hp & Ho) Hnn.
      vm_compute in Hq.
      repeat (destruct Hq as [<-|Hq]; [vm_compute in Hp; discriminate|]).
      done.
    + reflexivity.
    + reflexivity.
    + reflexivity.
    + reflexivity.
    + intros q' [].
Defined.

(** ** The multi-value accessors *)

Lemma array_includes_In (xs : list string) (x : string) :
  array_includes xs x = true <-> In x xs.
Proof.
  unfold array_includes. rewrite List.existsb_exists. split.
  - intros (y & Hy & Heq). apply String.eqb_eq in Heq. by subst.
  - intros Hx. exists x. split; [done | apply String.eqb_refl].
Qed.

Lemma set_add_In (values : list string) (x v : string) :
  In v (set_add values x) <-> In v values \/ v = x.
Proof.
  unfold set_add. destruct (array_includes values x) eqn:Hx.
  - apply array_includes_In in Hx. split; [by left|].
    intros [?| ->]; done.
  - rewrite List.in_app_iff. simpl. split.
    + intros [?|[<-|[]]]; [by left | by right].
    + intros [?| ->]; [by left | right; by left].
Qed.

Lemma set_add_NoDup (values : list string) (x : string) :
  List.NoDup values -> List.NoDup (set_add values x).
Proof.
  intros Hnd. unfold set_add. destruct (array_includes values x) eqn:Hx;
    [done|].
  apply List.NoDup_app; [done | repeat constructor; by intros [] |].
  intros y Hy [<-|[]]. apply array_includes_In in Hy. congruence.
Qed.

Section Collect.

Variable test : Quad -> bool.

Let step (values : list string) (q : Quad) : list string :=
  if test q then set_add values (value (object q)) else values.

Lemma collect_In (l : list Quad) (acc : list string) (v : string) :
  In v (List.fold_left step l acc)
  <-> In v acc \/ exists q, In q l /\ test q = true /\ value (object q) = v.
Proof.
  revert acc. induction l as [|q l IH]; intros acc; simpl.
  - split; [by left | intros [?|(q & [] & _)]; done].
  - rewrite IH. unfold step. destruct (test q) eqn:Hq.
    + rewrite set_add_In. split.
      * intros [[?| ->]|(q' & Hq' & Ht & Hv)]; [by left| |].
        -- right. exists q. split; [by left | done].
        -- right. exists q'. split; [by right | done].
      * intros [?|(q' & [<-|Hq'] & Ht & Hv)].
        -- left. by left.
        -- left. by right.
        -- right. by exists q'.
    + split.
      * intros [?|(q' & Hq' & Ht & Hv)]; [by left|].
        right. exists q'. split; [by right | done].
      * intros [?|(q' & [<-|Hq'] & Ht & Hv)]; [by left | congruence |].
        right. by exists q'.
Qed.

Lemma collect_NoDup (l : list Quad) (acc : list string) :
  List.NoDup acc -> List.NoDup (List.fold_left step l acc).
Proof.
  revert acc. induction l as [|q l IH]; intros acc Hacc; simpl; [done|].
  apply IH. unfold step. destruct (test q); [by apply set_add_NoDup | done].
Qed.

End Collect.

Lemma fold_left_ext_in {A B : Type} (f g : A -> B -> A) (l : list B)
  (acc : A) :
  (forall a b, f a b = g a b) ->
  List.fold_left f l acc = List.fold_left g l acc.
Proof.
  intros Hfg. revert acc. induction l as [|b l IH]; intros acc; simpl;
    [done|].
  by rewrite Hfg, IH.
Qed.

(** The test of [getAnyArrayForPredicates] in one condition. *)
Lemma getAnyArrayForPredicates_unfold (store : Store) (s : string)
  (preds : list string) :
  getAnyArrayForPredicates store s preds
  = List.fold_left
      (fun values q =>
         if String.eqb (termType (predicate q)) "NamedNode"
            && array_includes preds (value (predicate q))
            && (String.eqb (termType (object q)) "Literal"
                || String.eqb (termType (object q)) "NamedNode")
         then set_add values (value (object q))
         else values)
      (getQuadsForSubject store s) [].
Proof.
  unfold getAnyArrayForPredicates. apply fold_left_ext_in. intros values q.
  by destruct (_ && _), (_ || _).
Qed.

Lemma literal_array_In (store : Store) (s : string) (preds : list string)
  (v : string) :
  In v (getLiteralArrayForPredicates store s preds)
  <-> exists p lang, In p preds /\ has_triple store s p (literal v lang).
Proof.
  unfold getLiteralArrayForPredicates. rewrite collect_In. split.
  - intros [[]|(q & Hq & Htest & <-)].
    apply getQuadsForSubject_In in Hq as [Hq Hs].
    rewrite !andb_true_iff, !String.eqb_eq, array_includes_In in Htest.
    destruct Htest as [[Hpt Hp] Hot].
    exists (value (predicate q)), (language (object q)). split; [done|].
    exists q. repeat split; try done.
    + exact (namedNode_inv _ Hpt).
    + exact (literal_inv _ Hot).
  - intros (p & lang & Hp & q & Hq & Hs & Hpq & Ho). right. exists q.
    split; [by apply getQuadsForSubject_In|]. rewrite Hpq, Ho. simpl.
    split; [|done]. rewrite andb_true_r. by apply array_includes_In.
Qed.

Lemma iri_array_In (store : Store) (s : string) (preds : list string)
  (v : string) :
  In v (getIriArrayForPredicates store s preds)
  <-> exists p, In p preds /\ has_triple store s p (namedNode v).
Proof.
  unfold getIriArrayForPredicates. rewrite collect_In. split.
  - intros [[]|(q & Hq & Htest & <-)].
    apply getQuadsForSubject_In in Hq as [Hq Hs].
    rewrite !andb_true_iff, !String.eqb_eq, array_includes_In in Htest.
    destruct Htest as [[[Hpt Hp] Hot] _].
    exists (value (predicate q)). split; [done|].
    exists q. repeat split; try done.
    + exact (namedNode_inv _ Hpt).
    + exact (namedNode_inv _ Hot).
  - intros (p & Hp & q & Hq & Hs & Hpq & Ho). right. exists q.
    split; [by apply getQuadsForSubject_In|]. rewrite Hpq, Ho. simpl.
    split; [|done]. rewrite !andb_true_r. by apply array_includes_In.
Qed.

(** X3. [getLiteralArrayForPredicates] returns, without repetition, exactly
    the values of the literals that the store states for the subject with
    one of the given predicates. *)
Theorem getLiteralArrayForPredicates_spec :
  forall (store : Store) (s : string) (preds : list string),
    List.NoDup (getLiteralArrayForPredicates store s preds)
    /\ forall v, In v (getLiteralArrayForPredicates store s preds)
         <-> exists p lang,
               In p preds /\ has_triple store s p (literal v lang).
Proof.
  intros store s preds. split; [|apply literal_array_In].
  apply collect_NoDup. constructor.
Qed.

(** X4. [getIriArrayForPredicates] returns, without repetition, exactly the
    IRIs of the named nodes that the store states as objects for the
    subject with one of the given predicates; blank nodes and literals
    never show up. *)
Theorem getIriArrayForPredicates_spec :
  forall (store : Store) (s : string) (preds : list string),
    List.NoDup (getIriArrayForPredicates store s preds)
    /\ forall v, In v (getIriArrayForPredicates store s preds)
         <-> exists p, In p preds /\ has_triple store s p (namedNode v).
Proof.
  intros store s preds. split; [|apply iri_array_In].
  apply collect_NoDup. constructor.
Qed.

(** X5. [getAnyArrayForPredicates] returns, without repetition, the values
    that either of the two other array accessors returns for the same
    subject and predicates. *)
Theorem getAnyArrayForPredicates_union :
  forall (store : Store) (s : string) (preds : list string),
    List.NoDup (getAnyArrayForPredicates store s preds)
    /\ forall v, In v (getAnyArrayForPredicates store s preds)
         <-> In v (getLiteralArrayForPredicates store s preds)
             \/ In v (getIriArrayForPredicates store s preds).
Proof.
  intros store s preds. rewrite getAnyArrayForPredicates_unfold.
  split; [apply collect_NoDup; constructor|].
  intros v. unfold getLiteralArrayForPredicates, getIriArrayForPredicates.
  rewrite !collect_In. split.
  - intros [[]|(q & Hq & Htest & Hv)].
    apply andb_true_iff in Htest as [Hp Ho].
    apply orb_true_iff in Ho as [Ho|Ho].
    + left. right. exists q. by rewrite Hp, Ho.
    + right. right. exists q. rewrite Hp, Ho. simpl. split; [done|].
      split; [|done]. apply String.eqb_eq in Ho.
      by rewrite (namedNode_inv _ Ho).
  - intros [[[]|(q & Hq & Htest & Hv)]|[[]|(q & Hq & Htest & Hv)]];
      right; exists q; (split; [done|]); (split; [|done]).
    + apply andb_true_iff in Htest as [-> ->]. done.
    + apply andb_true_iff in Htest as [Htest _].
      apply andb_true_iff in Htest as [-> ->]. by rewrite orb_true_r.
Qed.

(** X6. The array accessors take the predicates as a set: two lists with
    the same members give the same result. *)
Theorem array_accessors_predicate_set :
  forall (store : Store) (s : string) (preds1 preds2 : list string),
    (forall p, In p preds1 <-> In p preds2) ->
    getLiteralArrayForPredicates store s preds1
      = getLiteralArrayForPredicates store s preds2
    /\ getIriArrayForPredicates store s preds1
       = getIriArrayForPredicates store s preds2
    /\ getAnyArrayForPredicates store s preds1
       = getAnyArrayForPredicates store s preds2.
Proof.
  intros store s preds1 preds2 Hsame.
  assert (Hinc : forall x, array_includes preds1 x = array_includes preds2 x).
  { intros x. destruct (array_includes preds2 x) eqn:H2.
    - apply array_includes_In. apply Hsame. by apply array_includes_In.
    - destruct (array_includes preds1 x) eqn:H1; [|done].
      apply array_includes_In, Hsame, array_includes_In in H1. congruence. }
  split; [|split];
    unfold getLiteralArrayForPredicates, getIriArrayForPredicates,
      getAnyArrayForPredicates;
    apply fold_left_ext_in; intros values q; by rewrite Hinc.
Qed.

Lemma array_accessors_predicate_set_witness :
  getLiteralArrayForPredicates example_store "http://example.org/ClassA"
    [NS.rdfs +:+ "label"; NS.skos +:+ "altLabel"]
  = getLiteralArrayForPredicates example_store "http://example.org/ClassA"
      [NS.skos +:+ "altLabel"; NS.rdfs +:+ "label"; NS.skos +:+ "altLabel"].
Proof.
  apply (array_accessors_predicate_set example_store
           "http://example.org/ClassA"
           [NS.rdfs +:+ "label"; NS.skos +:+ "altLabel"]
           [NS.skos +:+ "altLabel"; NS.rdfs +:+ "label";
            NS.skos +:+ "altLabel"]).
  intros p. simpl. tauto.
Defined.

(** X7. A quad whose subject is not the named node [s] has no effect on
    what the five accessors return for [s]. *)
Theorem accessors_ignore_other_subjects :
  forall (before after : Store) (q : Quad) (s : string)
         (preds : list string),
    subject q <> namedNode s ->
    let store := before ++ q :: after in
    let store' := before ++ after in
    getPreferredLiteralForPredicates store s preds
      = getPreferredLiteralForPredicates store' s preds
    /\ getPreferredIriForPredicates store s preds
       = getPreferredIriForPredicates store' s preds
    /\ getLiteralArrayForPredicates store s preds
       = getLiteralArrayForPredicates store' s preds
    /\ getIriArrayForPredicates store s preds
       = getIriArrayForPredicates store' s preds
    /\ getAnyArrayForPredicates store s preds
       = getAnyArrayForPredicates store' s preds.
Proof.
  intros before after q s preds Hq store store'.
  assert (Hquads : getQuadsForSubject store s = getQuadsForSubject store' s).
  { subst store store'. change (q :: after) with ([q] ++ after).
    rewrite !getQuadsForSubject_app.
    by rewrite (getQuadsForSubject_other q s Hq). }
  unfold getPreferredLiteralForPredicates, getPreferredIriForPredicates,
    getLiteralArrayForPredicates, getIriArrayForPredicates,
    getAnyArrayForPredicates.
  by rewrite Hquads.
Qed.

Lemma accessors_ignore_other_subjects_witness :
  getLiteralArrayForPredicates
    ([] ++ quad (blankNode "b0") (namedNode (NS.rdfs +:+ "label"))
             (literal "anonymous" "")
        :: example_store)
    "http://example.org/ClassA" [NS.rdfs +:+ "label"]
  = getLiteralArrayForPredicates ([] ++ example_store)
      "http://example.org/ClassA" [NS.rdfs +:+ "label"].
Proof.
  apply (accessors_ignore_other_subjects []). discriminate.
Defined.

(** ** The element classifier and the subjects of the table *)

Lemma getQuads_subject_In (store : Store) (subj : Term) (q : Quad) :
  In q (getQuads store (Some subj) None None None)
  <-> In q store /\ subject q = subj.
Proof.
  unfold getQuads. rewrite List.filter_In. simpl. rewrite !andb_true_r.
  rewrite bool_decide_eq_true. split; intros [? ?]; done.
Qed.

Lemma shouldIncludeElementSubject_iff (store : Store) (subj : Term) :
  shouldIncludeElementSubject store (Some subj) = true
  <-> exists iri ty,
        subj = namedNode iri /\ In ty interestingTypes
        /\ has_triple store iri (NS.rdf +:+ "type") (namedNode ty).
Proof.
  unfold shouldIncludeElementSubject.
  destruct (String.eqb (termType subj) "NamedNode") eqn:Hnn; cbn [negb].
  - apply String.eqb_eq in Hnn. rewrite List.existsb_exists. split.
    + intros (ty & Hty & Hint). apply array_includes_In in Hint.
      apply List.in_map_iff in Hty as (q & <- & Hq).
      apply List.filter_In in Hq as [Hq Htest].
      apply getQuads_subject_In in Hq as [Hq Hs].
      rewrite !andb_true_iff, !String.eqb_eq in Htest.
      destruct Htest as [[Hpt Hpv] Hot].
      exists (value subj), (value (object q)).
      split; [exact (namedNode_inv _ Hnn)|]. split; [done|].
      exists q. split; [done|]. split; [by rewrite Hs, <- namedNode_inv|].
      split; [by rewrite (namedNode_inv _ Hpt), Hpv|].
      exact (namedNode_inv _ Hot).
    + intros (iri & ty & -> & Hty & q & Hq & Hs & Hp & Ho).
      exists ty. split; [|by apply array_includes_In].
      apply List.in_map_iff. exists q. split; [by rewrite Ho|].
      apply List.filter_In. split; [by apply getQuads_subject_In|].
      by rewrite Hp, Ho.
  - split; [done|]. intros (iri & ty & -> & _). discriminate.
Qed.



(** [map.set] keeps the keys apart and adds the key it is given. *)
Lemma map_set_fst_In {V : Type} (m : list (string * V)) (k : string) (v : V)
  (k' : string) :
  In k' (List.map fst (map_set m k v)) <-> k' = k \/ In k' (List.map fst m).
Proof.
  induction m as [|[k0 v0] m IH]; simpl.
  - split; [intros [<-|[]]; by left | intros [->|[]]; by left].
  - destruct (String.eqb k0 k) eqn:Hk; simpl.
    + apply String.eqb_eq in Hk as ->. intuition congruence.
    + rewrite IH. intuition congruence.
Qed.

Lemma map_set_NoDup {V : Type} (m : list (string * V)) (k : string) (v : V) :
  List.NoDup (List.map fst m) -> List.NoDup (List.map fst (map_set m k v)).
Proof.
  induction m as [|[k0 v0] m IH]; simpl; intros Hnd.
  - repeat constructor. by intros [].
  - inversion Hnd as [|? ? Hk0 Hm]; subst.
    destruct (String.eqb k0 k) eqn:Hk; simpl.
    + apply String.eqb_eq in Hk as ->. by constructor.
    + constructor; [|by apply IH]. rewrite map_set_fst_In.
      apply String.eqb_neq in Hk. intros [->|?]; done.
Qed.

Lemma map_set_In {V : Type} (m : list (string * V)) (k : string) (v : V)
  (k' : string) (v' : V) :
  In (k', v') (map_set m k v) -> (k' = k /\ v' = v) \/ In (k', v') m.
Proof.
  induction m as [|[k0 v0] m IH]; simpl.
  - intros [[= <- <-]|[]]. by left.
  - destruct (String.eqb k0 k) eqn:Hk; simpl.
    + intros [[= <- <-]|?]; [by left | right; by right].
    + intros [?|Hin]; [right; by left|].
      destruct (IH Hin) as [?|?]; [by left | right; by right].
Qed.

Lemma subject_map_invariant (l : list Quad) (acc : list (string * Term)) :
  List.NoDup (List.map fst acc) ->
  (forall k v, In (k, v) acc -> v = namedNode k) ->
  let m := List.fold_left subject_map_step l acc in
  List.NoDup (List.map fst m)
  /\ (forall k v, In (k, v) m -> v = namedNode k)
  /\ (forall k, In k (List.map fst m)
        <-> In k (List.map fst acc)
            \/ exists q, In q l /\ subject q = namedNode k).
Proof.
  revert acc. induction l as [|q l IH]; intros acc Hnd Hval; simpl.
  - split; [done|]. split; [done|]. intros k. split; [by left|].
    intros [?|(q & [] & _)]. done.
  - assert (Hstep : List.NoDup (List.map fst (subject_map_step acc q))
             /\ (forall k v, In (k, v) (subject_map_step acc q) ->
                             v = namedNode k)
             /\ (forall k, In k (List.map fst (subject_map_step acc q))
                   <-> In k (List.map fst acc) \/ subject q = namedNode k)).
    { unfold subject_map_step.
      destruct (String.eqb (termType (subject q)) "NamedNode") eqn:Hnn.
      - apply String.eqb_eq in Hnn. pose proof (namedNode_inv _ Hnn) as Hs.
        assert (isBlankNode (Some (subject q)) = false) as ->
          by (unfold isBlankNode; by rewrite Hnn).
        simpl. split; [by apply map_set_NoDup|]. split.
        + intros k v Hin. apply map_set_In in Hin as [[-> ->]|Hin];
            [done | by apply Hval].
        + intros k. rewrite map_set_fst_In. rewrite Hs. split.
          * intros [->|?]; [by right | by left].
          * intros [?|[= ->]]; [by right | by left].
      - rewrite andb_false_r. split; [done|]. split; [done|].
        intros k. split; [by left|]. intros [?|Hs]; [done|].
        rewrite Hs in Hnn. discriminate. }
    destruct Hstep as (Hnd' & Hval' & Hkeys').
    destruct (IH _ Hnd' Hval') as (Hnd'' & Hval'' & Hkeys'').
    split; [done|]. split; [done|]. intros k.
    rewrite Hkeys'', Hkeys'. split.
    + intros [[?|Hq]|(q' & Hq' & Hs)]; [by left| |].
      * right. exists q. split; [by left | done].
      * right. exists q'. split; [by right | done].
    + intros [?|(q' & [<-|Hq'] & Hs)].
      * left. by left.
      * left. by right.
      * right. by exists q'.
Qed.

Lemma elementSubjects_unfold (store : Store) :
  elementSubjects store
  = List.filter (fun subj => shouldIncludeElementSubject store (Some subj))
      (List.map snd (List.fold_left subject_map_step store [])).
Proof. unfold elementSubjects. by rewrite getQuads_all. Qed.

Lemma NoDup_map_snd_namedNode (m : list (string * Term)) :
  List.NoDup (List.map fst m) ->
  (forall k v, In (k, v) m -> v = namedNode k) ->
  List.NoDup (List.map snd m).
Proof.
  induction m as [|[k v] m IH]; simpl; intros Hnd Hval; [constructor|].
  inversion Hnd as [|? ? Hk Hm]; subst. constructor.
  - intros Hin. apply List.in_map_iff in Hin as ([k' v'] & Hv & Hin).
    simpl in Hv. subst v'.
    rewrite (Hval k v (or_introl eq_refl)) in Hin.
    pose proof (Hval k' _ (or_intror Hin)) as [= <-].
    apply Hk. apply List.in_map_iff. by exists (k, namedNode k).
  - apply IH; [done|]. intros k' v' Hin. apply Hval. by right.
Qed.

Lemma elementSubjects_In (store : Store) (t : Term) :
  In t (elementSubjects store)
  <-> shouldIncludeElementSubject store (Some t) = true.
Proof.
  rewrite elementSubjects_unfold, List.filter_In.
  split; [by intros [_ ?]|]. intros Hinc. split; [|done].
  destruct (subject_map_invariant store [])
    as (Hnd & Hval & Hkeys); [constructor | by intros k v [] |].
  apply shouldIncludeElementSubject_iff in Hinc
    as (iri & ty & -> & _ & q & Hq & Hs & _).
  assert (In iri (List.map fst (List.fold_left subject_map_step store [])))
    as Hin by (apply Hkeys; right; by exists q).
  apply List.in_map_iff in Hin as ([k v] & Hk & Hin). simpl in Hk. subst k.
  apply List.in_map_iff. exists (iri, v). split; [|done].
  simpl. by apply Hval.
Qed.

Lemma elementSubjects_NoDup (store : Store) :
  List.NoDup (elementSubjects store).
Proof.
  rewrite elementSubjects_unfold. apply List.NoDup_filter.
  destruct (subject_map_invariant store [])
    as (Hnd & Hval & _); [constructor | by intros k v [] |].
  by apply NoDup_map_snd_namedNode.
Qed.

Lemma elementSubjects_typed (store : Store) (t : Term) :
  In t (elementSubjects store)
  <-> exists iri ty,
        t = namedNode iri /\ In ty interestingTypes
        /\ has_triple store iri (NS.rdf +:+ "type") (namedNode ty).
Proof. by rewrite elementSubjects_In, shouldIncludeElementSubject_iff. Qed.

(** X9. The subjects that [buildElementTableModel] makes rows of are,
    without repetition, exactly the named nodes that the classifier
    accepts: each IRI that the store types as one of the five element
    types, however many quads it is the subject of. *)
Theorem elementSubjects_spec :
  forall store : Store,
    List.NoDup (elementSubjects store)
    /\ forall t, In t (elementSubjects store)
         <-> exists iri ty,
               t = namedNode iri /\ In ty interestingTypes
               /\ has_triple store iri (NS.rdf +:+ "type") (namedNode ty).
Proof.
  intros store. split; [apply elementSubjects_NoDup|].
  intros t. apply elementSubjects_typed.
Qed.

(** ** The rows and columns of the table model *)

Lemma object_of_row_lookup
  (v0 v1 v2 v3 v4 v5 v6 v7 v8 v9 v10 : string) :
  let row := object_of
    [("iri", v0); ("label", v1); ("type", v2); ("definition", v3);
     ("preferredLabel", v4); ("alternativeLabel", v5); ("acronym", v6);
     ("subClassOf", v7); ("subPropertyOf", v8); ("definitionSource", v9);
     ("isCuratedIn", v10)] in
  row !! "iri" = Some v0 /\ row !! "type" = Some v2.
Proof.
  unfold object_of. cbn [List.fold_left fst snd].
  split; repeat (rewrite lookup_insert_ne by discriminate);
    apply lookup_insert_eq.
Qed.

Lemma element_row_iri (store : Store) (subj : Term) :
  cell (element_row store subj) "iri" = value subj.
Proof.
  unfold cell, element_row. cbv zeta.
  by rewrite (proj1 (object_of_row_lookup _ _ _ _ _ _ _ _ _ _ _)).
Qed.

Lemma element_row_type (store : Store) (subj : Term) :
  cell (element_row store subj) "type"
  = join "; " (getIriArrayForPredicates store (value subj)
                 [NS.rdf +:+ "type"]).
Proof.
  unfold cell, element_row. cbv zeta.
  by rewrite (proj2 (object_of_row_lookup _ _ _ _ _ _ _ _ _ _ _)).
Qed.

Lemma iri_in_model_keys (store : Store) :
  In "iri" (keys (buildElementTableModel store)).
Proof. rewrite model_keys. apply List.filter_In. split; [by left | done]. Qed.

Lemma NoDup_map_value (l : list Term) :
  (forall t, In t l -> exists iri, t = namedNode iri) ->
  List.NoDup l -> List.NoDup (List.map value l).
Proof.
  induction l as [|t l IH]; simpl; intros Hnn Hnd; [constructor|].
  inversion Hnd as [|? ? Ht Hl]; subst. constructor.
  - intros Hin. apply List.in_map_iff in Hin as (t' & Hv & Hin).
    destruct (Hnn t (or_introl eq_refl)) as [iri ->].
    destruct (Hnn t' (or_intror Hin)) as [iri' ->].
    simpl in Hv. by subst.
  - apply IH; [|done]. intros t' Ht'. apply Hnn. by right.
Qed.

(** X10. The model has one row for each element subject, in the same order;
    the [iri] field of a row is the IRI of its subject, so no two rows have
    the same [iri]. *)
Theorem buildElementTableModel_rows :
  forall store : Store,
    let m := buildElementTableModel store in
    List.length (rows m) = List.length (elementSubjects store)
    /\ List.map (fun r => cell r "iri") (rows m)
       = List.map value (elementSubjects store)
    /\ List.NoDup (List.map (fun r => cell r "iri") (rows m)).
Proof.
  intros store m.
  assert (Hiri : List.map (fun r => cell r "iri") (rows m)
                 = List.map value (elementSubjects store)).
  { subst m. rewrite model_rows, !List.map_map. apply List.map_ext.
    intros subj. unfold cell at 1.
    rewrite prune_row_lookup_in by apply iri_in_model_keys. simpl.
    apply element_row_iri. }
  split; [|split; [exact Hiri|]].
  - subst m. rewrite model_rows. by rewrite !List.length_map.
  - rewrite Hiri.
    apply NoDup_map_value; [|apply elementSubjects_NoDup].
    intros t Ht. apply elementSubjects_typed in Ht as (iri & _ & -> & _).
    by exists iri.
Qed.

Lemma filter_sublist {A : Type} (f : A -> bool) (l : list A) :
  sublist (List.filter f l) l.
Proof.
  induction l as [|x l IH]; simpl; [constructor|].
  destruct (f x); by constructor.
Qed.

Lemma filter_combine_snd {A B : Type} (g : B -> bool) (xs : list A)
  (ks : list B) :
  List.length xs = List.length ks ->
  List.map snd (List.filter (fun p => g (snd p)) (List.combine xs ks))
  = List.filter g ks.
Proof.
  revert ks. induction xs as [|x xs IH]; intros [|k ks] Hlen; simpl in *;
    try done.
  destruct (g k); simpl; rewrite IH; auto.
Qed.

Lemma combine_fst_snd {A B : Type} (l : list (A * B)) :
  List.combine (List.map fst l) (List.map snd l) = l.
Proof.
  induction l as [|[a b] l IH]; simpl; [done | by rewrite IH].
Qed.

(** X11. Headers and keys of the model stay aligned: the header and the key
    at the same index are a header and its key of the fixed column table,
    and the columns keep the order of that table. *)
Theorem buildElementTableModel_aligned :
  forall store : Store,
    let m := buildElementTableModel store in
    sublist (List.combine (headers m) (keys m))
      (List.combine allHeaders allKeys).
Proof.
  intros store m. subst m. rewrite model_headers, model_keys.
  rewrite <- (filter_combine_snd _ allHeaders allKeys) by reflexivity.
  rewrite combine_fst_snd. apply filter_sublist.
Qed.

(** ** The type column *)

Lemma all_chars_app (P : ascii -> Prop) (s t : string) :
  all_chars P (s +:+ t) <-> all_chars P s /\ all_chars P t.
Proof.
  induction s as [|c s IH].
  - simpl. tauto.
  - rewrite append_cons. simpl. rewrite IH. tauto.
Qed.

Lemma trimEnd_empty_all_space (s : string) :
  trimEnd s = "" -> all_chars (fun c => is_space c = true) s.
Proof.
  induction s as [|c s IH]; simpl; [done|].
  destruct (is_space c) eqn:Hc; simpl; [|done].
  destruct (String.eqb (trimEnd s) "") eqn:He; [|done].
  intros _. split; [done|]. apply IH. by apply String.eqb_eq.
Qed.

Lemma trimStart_all_space (s : string) :
  all_chars (fun c => is_space c = true) (trimStart s) ->
  all_chars (fun c => is_space c = true) s.
Proof.
  induction s as [|c s IH]; [done|]. cbn [trimStart].
  destruct (is_space c) eqn:Hc; [|done].
  intros Hs. split; [done | by apply IH].
Qed.

Lemma trim_empty_all_space (s : string) :
  trim s = "" -> all_chars (fun c => is_space c = true) s.
Proof.
  intros Ht. by apply trimStart_all_space, trimEnd_empty_all_space.
Qed.

Lemma join_contains (sep x : string) (xs : list string) :
  In x xs -> exists a b, join sep xs = a +:+ x +:+ b.
Proof.
  unfold join. induction xs as [|y xs IH]; [done|].
  intros [->|Hx].
  - destruct xs as [|z xs]; simpl.
    + exists "", "". by rewrite append_empty_r.
    + by exists "", (sep +:+ String.concat sep (z :: xs)).
  - destruct (IH Hx) as (a & b & Hab). destruct xs as [|z xs]; [done|].
    exists (y +:+ sep +:+ a), b.
    change (String.concat sep (y :: z :: xs))
      with (y +:+ sep +:+ String.concat sep (z :: xs)).
    rewrite Hab. by rewrite !append_assoc.
Qed.

Lemma interestingTypes_not_blank (ty : string) :
  In ty interestingTypes -> ~ all_chars (fun c => is_space c = true) ty.
Proof.
  intros Hty Hsp. unfold interestingTypes in Hty. simpl in Hty.
  repeat (destruct Hty as [<-|Hty];
          [vm_compute in Hsp; destruct Hsp; discriminate|]).
  done.
Qed.

Lemma element_row_has_type (store : Store) (subj : Term) :
  In subj (elementSubjects store) ->
  has_data "type" (element_row store subj) = true.
Proof.
  intros Hsubj. apply has_data_spec. rewrite element_row_type.
  apply elementSubjects_typed in Hsubj as (iri & ty & -> & Hty & Ht).
  intros Htrim. apply trim_empty_all_space in Htrim.
  assert (In ty (getIriArrayForPredicates store iri [NS.rdf +:+ "type"]))
    as Hin by (apply iri_array_In; exists (NS.rdf +:+ "type");
               split; [by left | done]).
  destruct (join_contains "; " ty _ Hin) as (a & b & Hab).
  simpl in Htrim. rewrite Hab in Htrim.
  apply all_chars_app in Htrim as [_ Htrim].
  apply all_chars_app in Htrim as [Htrim _].
  by apply (interestingTypes_not_blank ty).
Qed.

(** X12. As soon as the model has a row, it has the [type] column, and
    every row has a value in it: an element subject is one that the store
    types, and its types are what the column shows. *)
Theorem buildElementTableModel_type_column :
  forall store : Store,
    let m := buildElementTableModel store in
    rows m <> [] ->
    In "type" (keys m) /\ In "type" (headers m)
    /\ forall r, In r (rows m) -> trim (cell r "type") <> "".
Proof.
  intros store m Hrows.
  assert (Hkeep : keep_key
            (List.map (element_row store) (elementSubjects store)) "type"
          = true).
  { unfold keep_key. simpl. apply List.existsb_exists.
    subst m. rewrite model_rows in Hrows.
    destruct (elementSubjects store) as [|subj l] eqn:Hl; [done|].
    exists (element_row store subj). split; [by left|].
    apply element_row_has_type. rewrite Hl. by left. }
  assert (Hkey : In "type" (keys m)).
  { subst m. rewrite model_keys. apply List.filter_In. split; [|done].
    right. right. by left. }
  split; [done|]. split.
  - subst m. rewrite model_headers. apply List.in_map_iff.
    exists ("type", "type"). split; [done|]. apply List.filter_In.
    split; [|done]. right. right. by left.
  - intros r Hr. subst m. rewrite model_rows in Hr.
    apply List.in_map_iff in Hr as (r0 & <- & Hr0).
    apply List.in_map_iff in Hr0 as (subj & <- & Hsubj).
    unfold cell. rewrite prune_row_lookup_in by done. simpl.
    apply has_data_spec. by apply element_row_has_type.
Qed.

Lemma buildElementTableModel_type_column_witness :
  In "type" (keys (buildElementTableModel example_store))
  /\ In "type" (headers (buildElementTableModel example_store))
  /\ forall r, In r (rows (buildElementTableModel example_store)) ->
               trim (cell r "type") <> "".
Proof.
  apply (buildElementTableModel_type_column example_store).
  vm_compute. discriminate.
Defined.

(** ** Ontology metadata *)

Lemma getOntologySubjectIri_first (before after : Store) (q : Quad) :
  types_an_ontology q ->
  (forall q', In q' before -> ~ types_an_ontology q') ->
  getOntologySubjectIri (before ++ q :: after) = Some (value (subject q)).
Proof.
  intros Hq Hbefore. unfold getOntologySubjectIri. rewrite getQuads_all.
  rewrite (find_first _ before after q); [done| |].
  - intros q' Hq'. apply not_true_is_false.
    rewrite is_rdf_type_ontology_spec. by apply Hbefore.
  - by apply is_rdf_type_ontology_spec.
Qed.

Lemma getOntologySubjectIri_some (store : Store) (iri : string) :
  getOntologySubjectIri store = Some iri ->
  exists q, In q store /\ types_an_ontology q /\ value (subject q) = iri.
Proof.
  unfold getOntologySubjectIri. rewrite getQuads_all.
  destruct (List.find is_rdf_type_ontology store) as [q|] eqn:Hfind; [|done].
  intros [= <-]. apply List.find_some in Hfind as [Hin Hq].
  exists q. split; [done|]. split; [|done].
  by apply is_rdf_type_ontology_spec.
Qed.

(** X13. The metadata record is all or nothing: without an ontology IRI
    every field is empty.  An ontology IRI that is set is not the empty
    string and is the subject of a quad that states [rdf:type
    owl:Ontology]; it is the subject of the first such quad of the store,
    unless that subject has the empty string as its value. *)
Theorem extractOntologyMetadata_iri :
  forall store : Store,
    let meta := extractOntologyMetadata store in
    (ontologyIri meta = None -> meta = empty_metadata)
    /\ (forall iri, ontologyIri meta = Some iri ->
          iri <> ""
          /\ exists q, In q store /\ types_an_ontology q
                       /\ value (subject q) = iri)
    /\ (forall before q after,
          store = before ++ q :: after -> types_an_ontology q ->
          (forall q', In q' before -> ~ types_an_ontology q') ->
          ontologyIri meta
          = if String.eqb (value (subject q)) "" then None
            else Some (value (subject q))).
Proof.
  intros store meta. subst meta. unfold extractOntologyMetadata.
  split; [|split].
  - destruct (getOntologySubjectIri store) as [iri|]; [|done].
    by destruct (truthy iri).
  - intros iri. destruct (getOntologySubjectIri store) as [iri'|] eqn:Hsub;
      [|done].
    destruct (truthy iri') eqn:Htruthy; simpl; [|done].
    intros [= <-]. split.
    + unfold truthy in Htruthy. apply negb_true_iff in Htruthy.
      by apply String.eqb_neq.
    + by apply getOntologySubjectIri_some.
  - intros before q after -> Hq Hbefore.
    rewrite (getOntologySubjectIri_first before after q Hq Hbefore).
    unfold truthy. by destruct (String.eqb (value (subject q)) "").
Qed.

Lemma extractOntologyMetadata_iri_witness :
  ontologyIri
    (extractOntologyMetadata
       ([quad (namedNode "http://example.org/onto")
           (namedNode (NS.rdfs +:+ "label")) (literal "Example" "en")]
        ++ quad (namedNode "http://example.org/onto")
             (namedNode (NS.rdf +:+ "type"))
             (namedNode (NS.owl +:+ "Ontology"))
        :: []))
  = Some "http://example.org/onto".
Proof.
  apply (proj2 (proj2 (extractOntologyMetadata_iri _))
           [quad (namedNode "http://example.org/onto")
              (namedNode (NS.rdfs +:+ "label")) (literal "Example" "en")]
           (quad (namedNode "http://example.org/onto")
              (namedNode (NS.rdf +:+ "type"))
              (namedNode (NS.owl +:+ "Ontology")))
           []).
  - reflexivity.
  - split; reflexivity.
  - intros q' [<-|[]] [Hp _]. vm_compute in Hp. discriminate.
Defined.

Lemma getQuadsForSubject_none (store : Store) (s : string) :
  (forall q, In q store -> subject q <> namedNode s) ->
  getQuadsForSubject store s = [].
Proof.
  intros Hnone.
  destruct (getQuadsForSubject store s) as [|q l] eqn:Hl; [done|].
  assert (In q (getQuadsForSubject store s)) as Hin by (rewrite Hl; by left).
  apply getQuadsForSubject_In in Hin as [Hin Hs]. by destruct (Hnone q Hin).
Qed.

Lemma preferred_literal_loop_nil (preds : list string) :
  preferred_literal_loop [] preds = None.
Proof. by apply preferred_literal_loop_none. Qed.

Lemma preferred_iri_loop_nil (preds : list string) :
  preferred_iri_loop [] preds = None.
Proof. by apply preferred_iri_loop_none. Qed.

(** X14. The ontology subject is taken by its value, whatever kind of term
    it is, while the fields are looked up on the named node of that value.
    So when the first [rdf:type owl:Ontology] quad has a subject, such as a
    blank node, whose value is no named-node subject of the store, the
    record carries that value as ontology IRI and nothing else. *)
Theorem extractOntologyMetadata_unnamed_subject :
  forall (before after : Store) (q : Quad),
    types_an_ontology q ->
    (forall q', In q' before -> ~ types_an_ontology q') ->
    value (subject q) <> "" ->
    (forall q', In q' (before ++ q :: after) ->
                subject q' <> namedNode (value (subject q))) ->
    extractOntologyMetadata (before ++ q :: after)
    = mkMeta (Some (value (subject q))) None None None None None None.
Proof.
  intros before after q Hq Hbefore Hne Hnone.
  unfold extractOntologyMetadata.
  rewrite (getOntologySubjectIri_first before after q Hq Hbefore).
  unfold truthy. apply String.eqb_neq in Hne. rewrite Hne. simpl.
  unfold getPreferredLiteralForPredicates, getPreferredIriForPredicates.
  rewrite (getQuadsForSubject_none _ _ Hnone).
  by rewrite !preferred_literal_loop_nil, !preferred_iri_loop_nil.
Qed.

Lemma extractOntologyMetadata_unnamed_subject_witness :
  extractOntologyMetadata
    ([] ++ quad (blankNode "b0") (namedNode (NS.rdf +:+ "type"))
             (namedNode (NS.owl +:+ "Ontology"))
        :: [quad (blankNode "b0") (namedNode (NS.rdfs +:+ "label"))
              (literal "Anonymous ontology" "en")])
  = mkMeta (Some "b0") None None None None None None.
Proof.
  apply (extractOntologyMetadata_unnamed_subject []
           [quad (blankNode "b0") (namedNode (NS.rdfs +:+ "label"))
              (literal "Anonymous ontology" "en")]
           (quad (blankNode "b0") (namedNode (NS.rdf +:+ "type"))
              (namedNode (NS.owl +:+ "Ontology")))).
  - split; reflexivity.
  - intros q' [].
  - discriminate.
  - intros q' [<-|[<-|[]]]; discriminate.
Defined.

(** ** More on filtering and sorting *)

Lemma row_comparator_order (localeCompare : string -> string -> Z)
  (key sortDirection : string) :
  consistent_collation localeCompare ->
  let cmp := row_comparator localeCompare key sortDirection in
  (forall a b, (cmp a b <= 0)%Z \/ (cmp b a <= 0)%Z)
  /\ (forall a b c, (cmp a b <= 0)%Z -> (cmp b c <= 0)%Z -> (cmp a c <= 0)%Z)
  /\ (forall a b, ((cmp a b <=? 0)%Z && (cmp b a <=? 0)%Z)
                  = ties_with localeCompare key a b).
Proof.
  intros [Hanti Htrans] cmp. subst cmp. unfold row_comparator, ties_with.
  destruct (String.eqb sortDirection "asc"); (split; [|split]).
  - intros a b. pose proof (Hanti (cell b key) (cell a key)). lia.
  - intros a b c. apply Htrans.
  - intros a b. pose proof (Hanti (cell a key) (cell b key)).
    pose proof (Hanti (cell b key) (cell a key)).
    destruct (Z.leb_spec (localeCompare (cell a key) (cell b key)) 0),
             (Z.leb_spec (localeCompare (cell b key) (cell a key)) 0),
             (Z.eqb_spec (localeCompare (cell a key) (cell b key)) 0);
      simpl; try done; lia.
  - intros a b. pose proof (Hanti (cell a key) (cell b key)). lia.
  - intros a b c Hab Hbc.
    pose proof (Hanti (cell a key) (cell b key)).
    pose proof (Hanti (cell b key) (cell c key)).
    pose proof (Hanti (cell a key) (cell c key)).
    pose proof (Htrans (cell c key) (cell b key) (cell a key)). lia.
  - intros a b. pose proof (Hanti (cell a key) (cell b key)).
    pose proof (Hanti (cell b key) (cell a key)).
    destruct (Z.leb_spec (- localeCompare (cell a key) (cell b key)) 0),
             (Z.leb_spec (- localeCompare (cell b key) (cell a key)) 0),
             (Z.eqb_spec (localeCompare (cell a key) (cell b key)) 0);
      simpl; try done; lia.
Qed.

(** X15. Sorting is stable: among the rows returned, those that tie with a
    given row in the sort column are in the order the filter left them in,
    which is their order in the model. *)
Theorem filterAndSortRows_stable :
  forall (localeCompare : string -> string -> Z) (model : TableModel)
         (query : option string) (i : Z) (key sortDirection : string)
         (z : Row),
    consistent_collation localeCompare ->
    (0 <= i < Z.of_nat (List.length (headers model)))%Z ->
    keys model !! Z.to_nat i = Some key -> key <> "" ->
    List.filter (ties_with localeCompare key z)
      (filterAndSortRows localeCompare model query (Some i) sortDirection)
    = List.filter (ties_with localeCompare key z) (filter_rows model query).
Proof.
  intros localeCompare model query i key sortDirection z Hlc Hi Hk Hne.
  unfold filterAndSortRows. rewrite (sort_key_resolved model i key) by done.
  destruct (row_comparator_order localeCompare key sortDirection Hlc)
    as (_ & Htrans & Hties).
  rewrite <- (List.filter_ext _ _ (Hties z)
                (array_sort (row_comparator localeCompare key sortDirection)
                   (filter_rows model query))).
  rewrite <- (List.filter_ext _ _ (Hties z) (filter_rows model query)).
  by apply array_sort_stable.
Qed.

Lemma filterAndSortRows_stable_witness :
  List.filter (ties_with code_unit_compare "label" apple_row)
    (filterAndSortRows code_unit_compare zebra_model None (Some 1%Z) "desc")
  = List.filter (ties_with code_unit_compare "label" apple_row)
      (filter_rows zebra_model None).
Proof.
  apply (filterAndSortRows_stable code_unit_compare zebra_model None 1%Z
           "label" "desc" apple_row code_unit_compare_consistent).
  - simpl. lia.
  - reflexivity.
  - discriminate.
Defined.

Lemma array_sort_sorted_id {A : Type} (cmp : A -> A -> Z) (l : list A) :
  StronglySorted (fun a b => (cmp a b <= 0)%Z) l -> array_sort cmp l = l.
Proof.
  induction 1 as [|x l Hl IH Hx]; [done|].
  unfold array_sort in *. cbn [List.fold_right]. rewrite IH.
  destruct l as [|y l]; [done|]. cbn [sort_insert].
  apply List.Forall_inv in Hx. apply Z.leb_le in Hx. by rewrite Hx.
Qed.

Lemma filter_all {A : Type} (f : A -> bool) (l : list A) :
  (forall x, In x l -> f x = true) -> List.filter f l = l.
Proof.
  induction l as [|x l IH]; simpl; intros Hall; [done|].
  rewrite (Hall x (or_introl eq_refl)). f_equal. apply IH.
  intros y Hy. apply Hall. by right.
Qed.

(** X16. Filtering and sorting again, with the same query, index and
    direction, the rows that [filterAndSortRows] returned changes nothing. *)
Theorem filterAndSortRows_idempotent :
  forall (localeCompare : string -> string -> Z) (model : TableModel)
         (query : option string) (sortIndex : option Z)
         (sortDirection : string),
    consistent_collation localeCompare ->
    let result :=
      filterAndSortRows localeCompare model query sortIndex sortDirection in
    filterAndSortRows localeCompare
      (mkModel (headers model) (keys model) result)
      query sortIndex sortDirection
    = result.
Proof.
  intros localeCompare model query sortIndex sortDirection Hlc result.
  assert (Hfilter : filter_rows (mkModel (headers model) (keys model) result)
                      query = result).
  { unfold filter_rows. cbn [rows].
    destruct (truthy (toLowerCase (default "" query))) eqn:Hq; [|done].
    apply filter_all. intros r Hr.
    apply (Permutation_in _
             (filterAndSortRows_perm localeCompare model query sortIndex
                sortDirection)) in Hr.
    unfold filter_rows in Hr. rewrite Hq in Hr.
    by apply List.filter_In in Hr as [_ Hr]. }
  unfold filterAndSortRows at 1. rewrite Hfilter.
  assert (sort_key (mkModel (headers model) (keys model) result) sortIndex
          = sort_key model sortIndex) as -> by reflexivity.
  destruct (sort_key model sortIndex) as [key|] eqn:Hkey; [|done].
  apply array_sort_sorted_id. subst result. unfold filterAndSortRows.
  rewrite Hkey.
  destruct (row_comparator_order localeCompare key sortDirection Hlc)
    as (Htotal & Htrans & _).
  by apply array_sort_sorted.
Qed.

Lemma filterAndSortRows_idempotent_witness :
  filterAndSortRows code_unit_compare
    (mkModel (headers zebra_model) (keys zebra_model)
       (filterAndSortRows code_unit_compare zebra_model (Some "a")
          (Some 1%Z) "desc"))
    (Some "a") (Some 1%Z) "desc"
  = filterAndSortRows code_unit_compare zebra_model (Some "a") (Some 1%Z)
      "desc".
Proof.
  apply (filterAndSortRows_idempotent code_unit_compare zebra_model
           (Some "a") (Some 1%Z) "desc" code_unit_compare_consistent).
Defined.

Lemma includes_trans (v q2 q1 : string) :
  includes v q2 = true -> includes q2 q1 = true -> includes v q1 = true.
Proof.
  rewrite !includes_iff. intros (a & b & ->) (c & d & ->).
  exists (a +:+ c), (d +:+ b). by rewrite !append_assoc.
Qed.

(** X17. A longer query narrows the result: when the query [q1] occurs in
    the query [q2], letter case aside, every row returned for [q2] is among
    the rows returned for [q1], whatever the sort index and direction of
    either call. *)
Theorem filterAndSortRows_narrowing :
  forall (localeCompare : string -> string -> Z) (model : TableModel)
         (q1 q2 : string) (sortIndex1 sortIndex2 : option Z)
         (sortDirection1 sortDirection2 : string) (r : Row),
    contains_ignoring_case q2 q1 ->
    In r (filterAndSortRows localeCompare model (Some q2) sortIndex2
            sortDirection2) ->
    In r (filterAndSortRows localeCompare model (Some q1) sortIndex1
            sortDirection1).
Proof.
  intros localeCompare model q1 q2 sortIndex1 sortIndex2 sortDirection1
    sortDirection2 r Hsub Hr.
  apply (Permutation_in _
           (filterAndSortRows_perm localeCompare model (Some q2) sortIndex2
              sortDirection2)) in Hr.
  apply (Permutation_in _
           (Permutation_sym
              (filterAndSortRows_perm localeCompare model (Some q1)
                 sortIndex1 sortDirection1))).
  unfold filter_rows in *. simpl in *.
  destruct (truthy (toLowerCase q1)) eqn:Hq1.
  - assert (truthy (toLowerCase q2) = true) as Hq2.
    { destruct Hsub as (a & b & Hab). rewrite Hab. unfold truthy in *.
      apply negb_true_iff, String.eqb_neq. intros Hnil.
      apply negb_true_iff, String.eqb_neq in Hq1.
      destruct a; [|by rewrite append_cons in Hnil].
      simpl in Hnil. destruct (toLowerCase q1); [done|].
      by rewrite append_cons in Hnil. }
    rewrite Hq2 in Hr. apply List.filter_In in Hr as [Hin Hmatch].
    apply List.filter_In. split; [done|].
    unfold row_matches in *. apply List.existsb_exists in Hmatch
      as (v & Hv & Hinc).
    apply List.existsb_exists. exists v. split; [done|].
    apply (includes_trans _ _ _ Hinc). by apply includes_iff.
  - destruct (truthy (toLowerCase q2)); [|done].
    by apply List.filter_In in Hr as [Hr _].
Qed.

Lemma filterAndSortRows_narrowing_witness :
  In banana_row
    (filterAndSortRows code_unit_compare zebra_model (Some "AN") None "asc").
Proof.
  apply (filterAndSortRows_narrowing code_unit_compare zebra_model
           "AN" "bAnan" None (Some 1%Z) "asc" "desc" banana_row).
  - exists "b", "an". reflexivity.
  - vm_compute. left. reflexivity.
Defined.

(** ** CSV export *)

Lemma escape_quotes_roundtrip (v : string) :
  unescape_quotes (escape_quotes v) = v.
Proof.
  induction v as [|c v IH]; [done|]. cbn [escape_quotes].
  destruct (Ascii.eqb c dquote) eqn:Hc.
  - apply Ascii.eqb_eq in Hc as ->. cbn. by rewrite IH.
  - cbn [unescape_quotes]. rewrite Hc. by rewrite IH.
Qed.

(** X18. Doubling the quotes loses nothing: reading two quotes in a row as
    one gives the cell value back, so different values are written as
    different fields. *)
Theorem escape_quotes_faithful :
  (forall v : string, unescape_quotes (escape_quotes v) = v)
  /\ (forall (row1 row2 : Row) (key : string),
        csv_field row1 key = csv_field row2 key ->
        key <> "" -> cell row1 key = cell row2 key).
Proof.
  split; [apply escape_quotes_roundtrip|].
  intros row1 row2 key Heq Hkey. unfold csv_field, truthy in Heq.
  apply String.eqb_neq in Hkey. rewrite Hkey in Heq. simpl in Heq.
  inversion Heq as [Happ].
  assert (Hinj : forall a b : string,
            a +:+ String dquote "" = b +:+ String dquote "" -> a = b).
  { induction a as [|x a IH]; intros [|y b] Hab; try done.
    - rewrite append_cons in Hab. inversion Hab as [[Hx Hb]].
      destruct b; [done | by rewrite append_cons in Hb].
    - rewrite append_cons in Hab. inversion Hab as [[Hx Ha]].
      destruct a; [done | by rewrite append_cons in Ha].
    - rewrite !append_cons in Hab. inversion Hab. f_equal. by apply IH. }
  apply Hinj in Happ.
  by rewrite <- (escape_quotes_roundtrip (cell row1 key)), Happ,
    escape_quotes_roundtrip.
Qed.

Lemma escape_quotes_faithful_witness :
  cell zebra_row "label" = cell (object_of [("label", "Zebra")]) "label".
Proof.
  apply (proj2 escape_quotes_faithful zebra_row
           (object_of [("label", "Zebra")]) "label");
    [reflexivity | discriminate].
Defined.

(** *** What a CSV reader sees *)

Lemma csv_state_app (st : bool) (a b : string) :
  csv_state st (a +:+ b) = csv_state (csv_state st a) b.
Proof.
  revert st. induction a as [|c a IH]; intros st; [done|].
  rewrite append_cons. cbn [csv_state]. apply IH.
Qed.

Lemma csv_count_app (sep : ascii) (st : bool) (a b : string) :
  csv_count sep st (a +:+ b)
  = csv_count sep st a + csv_count sep (csv_state st a) b.
Proof.
  revert st. induction a as [|c a IH]; intros st; [done|].
  rewrite append_cons. cbn [csv_count csv_state].
  destruct (Ascii.eqb c dquote); [apply IH|].
  destruct (Ascii.eqb c sep && negb st); rewrite IH; simpl; lia.
Qed.

Lemma escape_quotes_inside (sep : ascii) (v : string) :
  csv_state true (escape_quotes v) = true
  /\ csv_count sep true (escape_quotes v) = 0.
Proof.
  induction v as [|c v [IHs IHc]]; [done|]. cbn [escape_quotes].
  destruct (Ascii.eqb c dquote) eqn:Hc.
  - cbn [csv_state csv_count]. rewrite Ascii.eqb_refl. simpl. done.
  - cbn [csv_state csv_count]. rewrite Hc, andb_false_r. done.
Qed.

Lemma csv_field_closed (sep : ascii) (row : Row) (key : string) :
  csv_closed sep (csv_field row key).
Proof.
  unfold csv_closed, csv_field.
  set (v := if truthy key then cell row key else "").
  destruct (escape_quotes_inside sep v) as [Hs Hc].
  cbn [csv_state csv_count]. rewrite Ascii.eqb_refl. cbn [negb].
  rewrite csv_state_app, csv_count_app, Hs, Hc. by cbn.
Qed.

Lemma plain_header_closed (sep : ascii) (h : string) :
  sep = ","%char \/ sep = newline -> plain_header h -> csv_closed sep h.
Proof.
  intros Hsep. unfold plain_header, csv_closed.
  induction h as [|c h IH]; [done|]. intros [Hc Hh].
  rewrite !andb_true_iff, !negb_true_iff in Hc.
  destruct Hc as [[Hq Hcomma] Hnl]. cbn [csv_state csv_count]. rewrite Hq.
  assert (Ascii.eqb c sep = false) as -> by (by destruct Hsep as [-> | ->]).
  by apply IH.
Qed.

Lemma csv_join (sepc sep : ascii) (pieces : list string) :
  sepc <> dquote ->
  (forall p, In p pieces -> csv_closed sep p) ->
  csv_state false (join (String sepc "") pieces) = false
  /\ csv_count sep false (join (String sepc "") pieces)
     = if Ascii.eqb sepc sep then List.length pieces - 1 else 0.
Proof.
  intros Hsepc. unfold join.
  induction pieces as [|p pieces IH]; intros Hclosed.
  - by destruct (Ascii.eqb sepc sep).
  - destruct (Hclosed p (or_introl eq_refl)) as [Hps Hpc].
    destruct pieces as [|p' pieces].
    + simpl. rewrite Hps, Hpc. by destruct (Ascii.eqb sepc sep).
    + destruct IH as [IHs IHc]; [intros x Hx; apply Hclosed; by right|].
      change (String.concat (String sepc "") (p :: p' :: pieces))
        with (p +:+ String sepc ""
                +:+ String.concat (String sepc "") (p' :: pieces)).
      rewrite csv_state_app, csv_count_app, Hps, Hpc.
      apply Ascii.eqb_neq in Hsepc.
      rewrite append_cons. cbn [csv_state csv_count]. rewrite Hsepc.
      change ("" +:+ String.concat (String sepc "") (p' :: pieces))
        with (String.concat (String sepc "") (p' :: pieces)).
      rewrite IHs, IHc. split; [done|].
      destruct (Ascii.eqb sepc sep); simpl; lia.
Qed.

Lemma csv_data_line (sep : ascii) (model : TableModel) (row : Row) :
  let line := join "," (List.map (csv_field row) (keys model)) in
  csv_state false line = false
  /\ csv_count sep false line
     = if Ascii.eqb "," sep then List.length (keys model) - 1 else 0.
Proof.
  intros line. subst line.
  destruct (csv_join ","%char sep (List.map (csv_field row) (keys model)))
    as [Hs Hc]; [discriminate| |].
  - intros p Hp. apply List.in_map_iff in Hp as (key & <- & _).
    apply csv_field_closed.
  - by rewrite List.length_map in Hc.
Qed.

(** X19. Whatever the cells hold (commas, quotes, line feeds), a CSV reader
    finds in each data line exactly one field for each key of the model,
    and is outside quotes at the end of the line. *)
Theorem tableModelToCsv_field_count :
  forall (model : TableModel) (rows : list Row) (line : string),
    keys model <> [] ->
    In line (List.tl (csv_lines model rows)) ->
    S (csv_count "," false line) = List.length (keys model)
    /\ csv_state false line = false.
Proof.
  intros model rows line Hkeys Hline. unfold csv_lines in Hline.
  cbn [List.tl] in Hline. apply List.in_map_iff in Hline as (row & <- & _).
  destruct (csv_data_line ","%char model row) as [Hs Hc].
  split; [|done]. rewrite Hc, Ascii.eqb_refl.
  destruct (keys model); [done | simpl; lia].
Qed.

Lemma tableModelToCsv_field_count_witness :
  S (csv_count "," false
       (List.nth 1 (csv_lines zebra_model (rows zebra_model)) ""))
    = List.length (keys zebra_model)
  /\ csv_state false
       (List.nth 1 (csv_lines zebra_model (rows zebra_model)) "") = false.
Proof.
  apply (tableModelToCsv_field_count zebra_model (rows zebra_model)).
  - discriminate.
  - left. reflexivity.
Defined.

Lemma csv_header_line (model : TableModel) :
  (forall h, In h (headers model) -> plain_header h) ->
  csv_closed newline (join "," (headers model)).
Proof.
  intros Hplain.
  destruct (csv_join ","%char newline (headers model)) as [Hs Hc];
    [discriminate| |].
  - intros h Hh. apply plain_header_closed; [by right | by apply Hplain].
  - by split.
Qed.

(** X20. When no header holds a double quote, a comma or a line feed, a
    CSV reader finds in the exported text one record for the headers and
    one for each row, whatever the cells hold: the line feeds outside
    quotes are as many as the rows. *)
Theorem tableModelToCsv_record_count :
  forall (model : TableModel) (rows : list Row),
    (forall h, In h (headers model) -> plain_header h) ->
    csv_count newline false (tableModelToCsv model rows) = List.length rows.
Proof.
  intros model rows Hplain. unfold tableModelToCsv.
  destruct (csv_join newline newline (csv_lines model rows)) as [_ Hc];
    [discriminate| |].
  - intros line [<-|Hline].
    + by apply csv_header_line.
    + apply List.in_map_iff in Hline as (row & <- & _).
      destruct (csv_data_line newline model row) as [Hs Hcount].
      by split.
  - rewrite Hc. unfold csv_lines. simpl. rewrite List.length_map. lia.
Qed.

Lemma allHeaders_plain (h : string) : In h allHeaders -> plain_header h.
Proof.
  unfold allHeaders. simpl. intros Hh.
  repeat (destruct Hh as [<-|Hh]; [by vm_compute|]). done.
Qed.

Lemma model_headers_plain (store : Store) (h : string) :
  In h (headers (buildElementTableModel store)) -> plain_header h.
Proof.
  rewrite model_headers. intros Hh.
  apply List.in_map_iff in Hh as ([h' k] & <- & Hin).
  apply List.filter_In in Hin as [Hin _].
  apply List.in_combine_l in Hin. by apply allHeaders_plain.
Qed.

Lemma tableModelToCsv_record_count_witness :
  csv_count newline false
    (tableModelToCsv (buildElementTableModel example_store)
       (rows (buildElementTableModel example_store)))
  = List.length (rows (buildElementTableModel example_store)).
Proof.
  apply (tableModelToCsv_record_count (buildElementTableModel example_store)).
  apply model_headers_plain.
Defined.

(** X21. The CSV text of a model that [buildElementTableModel] built is
    rectangular: a CSV reader finds in every line, the header line
    included, as many fields as the model has headers, whichever rows are
    exported and whatever their cells hold. *)
Theorem tableModelToCsv_rectangular :
  forall (store : Store) (rows : list Row) (line : string),
    let m := buildElementTableModel store in
    In line (csv_lines m rows) ->
    S (csv_count "," false line) = List.length (headers m).
Proof.
  intros store rows line m Hline.
  assert (Hlen : List.length (headers m) = List.length (keys m))
    by (by apply filter_by_index_length).
  assert (Hpos : 0 < List.length (keys m)).
  { pose proof (iri_in_model_keys store) as Hiri. fold m in Hiri.
    destruct (keys m); [done | simpl; lia]. }
  destruct Hline as [<-|Hline].
  - destruct (csv_join ","%char ","%char (headers m)) as [_ Hc];
      [discriminate| |].
    + intros h Hh. apply plain_header_closed; [by left|].
      by apply (model_headers_plain store).
    + rewrite Hc, Ascii.eqb_refl. lia.
  - apply List.in_map_iff in Hline as (row & <- & _).
    destruct (csv_data_line ","%char m row) as [_ Hc].
    rewrite Hc, Ascii.eqb_refl. lia.
Qed.

Lemma tableModelToCsv_rectangular_witness :
  S (csv_count "," false
       (List.nth 1
          (csv_lines (buildElementTableModel example_store)
             (rows (buildElementTableModel example_store))) ""))
  = List.length (headers (buildElementTableModel example_store)).
Proof.
  apply (tableModelToCsv_rectangular example_store
           (rows (buildElementTableModel example_store))).
  right. vm_compute. left. reflexivity.
Defined.

(** ** The site header: escaping *)

Lemma replaceAll_char_app (c : ascii) (rep a b : string) :
  replaceAll_char c rep (a +:+ b)
  = replaceAll_char c rep a +:+ replaceAll_char c rep b.
Proof.
  induction a as [|d a IH]; [done|]. rewrite append_cons.
  cbn [replaceAll_char]. destruct (Ascii.eqb d c).
  - by rewrite IH, append_assoc.
  - by rewrite IH, append_cons.
Qed.

Lemma escapeHtml_app (a b : string) :
  escapeHtml (a +:+ b) = escapeHtml a +:+ escapeHtml b.
Proof. unfold escapeHtml. by rewrite !replaceAll_char_app. Qed.

Lemma escapeHtml_char (c : ascii) :
  escapeHtml (String c "") = html_entity c.
Proof. destruct c as [[] [] [] [] [] [] [] []]; reflexivity. Qed.

Lemma escapeHtml_entities (s : string) : escapeHtml s = html_entities s.
Proof.
  induction s as [|c s IH]; [done|].
  change (String c s) with (String c "" +:+ s).
  by rewrite escapeHtml_app, escapeHtml_char, IH.
Qed.

Lemma html_entity_safe (c : ascii) :
  all_chars (fun d => html_special d = false) (html_entity c).
Proof. destruct c as [[] [] [] [] [] [] [] []]; by vm_compute. Qed.

(** X22. The five replacements of [escapeHtml] do not rewrite one
    another's output: the result is the text with each of the five
    characters replaced once by its entity and every other character kept.
    It holds no angle bracket, double quote or apostrophe, and a text
    without the five characters is returned as it is. *)
Theorem escapeHtml_single_pass :
  forall s : string,
    escapeHtml s = html_entities s
    /\ all_chars (fun d => html_special d = false) (escapeHtml s)
    /\ (all_chars (fun d => html_special d = false
                            /\ Ascii.eqb d "&" = false) s ->
        escapeHtml s = s).
Proof.
  intros s. split; [apply escapeHtml_entities|]. split.
  - rewrite escapeHtml_entities. induction s as [|c s IH]; [done|].
    cbn [html_entities]. apply all_chars_app. split; [|done].
    apply html_entity_safe.
  - rewrite escapeHtml_entities. induction s as [|c s IH]; [done|].
    intros [[Hsp Hamp] Hs]. cbn [html_entities]. rewrite (IH Hs).
    unfold html_special in Hsp. rewrite !orb_false_iff in Hsp.
    destruct Hsp as [[[Hlt Hgt] Hq] Hap].
    unfold html_entity. by rewrite Hamp, Hlt, Hgt, Hq, Hap.
Qed.

Lemma escapeHtml_single_pass_witness :
  escapeHtml "Ontology Tabulator" = "Ontology Tabulator".
Proof.
  apply (proj2 (proj2 (escapeHtml_single_pass "Ontology Tabulator"))).
  by vm_compute.
Defined.

(** ** The state of the rendered table *)

Lemma handle_invariant (n : nat) (st : View.State) (e : View.Event) :
  (forall i, e = View.Click (Some i) -> i < n) ->
  (0 <= View.sortIndex st < Z.of_nat n)%Z /\ direction_ok st ->
  (0 <= View.sortIndex (View.handle st e) < Z.of_nat n)%Z
  /\ direction_ok (View.handle st e).
Proof.
  intros He [Hidx Hdir]. destruct e as [[i|]|v]; simpl; try done.
  unfold View.on_click, direction_ok.
  destruct (Z.of_nat i =? View.sortIndex st)%Z eqn:Hi; simpl.
  - split; [done|].
    destruct (String.eqb (View.sortDirection st) "asc"); [by right | by left].
  - specialize (He i eq_refl). split; [lia | by left].
Qed.

Lemma fold_handle_invariant (n : nat) (events : list View.Event)
  (st : View.State) :
  clicks_within n events ->
  (0 <= View.sortIndex st < Z.of_nat n)%Z /\ direction_ok st ->
  (0 <= View.sortIndex (List.fold_left View.handle events st) < Z.of_nat n)%Z
  /\ direction_ok (List.fold_left View.handle events st).
Proof.
  revert st. induction events as [|e events IH]; intros st Hin Hst; [done|].
  simpl. apply IH.
  - intros i Hi. apply Hin. by right.
  - apply handle_invariant; [|done]. intros i ->. apply Hin. by left.
Qed.

Lemma view_state_bounds (n : nat) (events : list View.Event) :
  0 < n -> clicks_within n events ->
  (0 <= View.sortIndex (View.run events) < Z.of_nat n)%Z
  /\ direction_ok (View.run events).
Proof.
  intros Hn Hin. unfold View.run.
  apply fold_handle_invariant; [done|]. split; [simpl; lia | by left].
Qed.

(** X23. Whatever the user clicks and types, the table state stays sound:
    as long as the table has a column and the clicks hit its header cells,
    the sort index is the number of one of its columns and the direction
    is 'asc' or 'desc'. *)
Theorem view_state_invariant :
  forall (n : nat) (events : list View.Event),
    0 < n -> clicks_within n events ->
    (0 <= View.sortIndex (View.run events) < Z.of_nat n)%Z
    /\ direction_ok (View.run events).
Proof.
  intros n events. apply view_state_bounds.
Qed.

Lemma view_state_invariant_witness :
  (0 <= View.sortIndex
          (View.run [View.Click (Some 1%nat); View.Input "an";
                     View.Click None; View.Click (Some 1%nat)]) < Z.of_nat 2%nat)%Z
  /\ direction_ok
       (View.run [View.Click (Some 1%nat); View.Input "an";
                  View.Click None; View.Click (Some 1%nat)]).
Proof.
  apply (view_state_invariant 2%nat); [lia|].
  intros i Hi. simpl in Hi.
  destruct Hi as [[= <-]|[[=]|[[=]|[[= <-]|[]]]]]; lia.
Defined.

(** X24. A click on the header of another column sorts by that column,
    ascending; a click on the header of the current column turns the
    direction round, so that two clicks on it leave the state as it was. *)
Theorem view_click_toggles :
  forall (st : View.State) (i : nat),
    direction_ok st ->
    (Z.of_nat i <> View.sortIndex st ->
       View.on_click (Some i) st
       = View.mkState (Z.of_nat i) "asc" (View.currentQuery st))
    /\ (Z.of_nat i = View.sortIndex st ->
          View.sortDirection (View.on_click (Some i) st)
            <> View.sortDirection st
          /\ View.on_click (Some i) (View.on_click (Some i) st) = st).
Proof.
  intros [idx dir q] i Hdir. unfold View.on_click. simpl in *. split.
  - intros Hne. apply Z.eqb_neq in Hne. by rewrite Hne.
  - intros ->. rewrite Z.eqb_refl. simpl. rewrite Z.eqb_refl.
    destruct Hdir as [Hd|Hd]; simpl in Hd; subst dir; by simpl.
Qed.

Lemma view_click_toggles_witness :
  View.on_click (Some 0%nat) (View.on_click (Some 0%nat) View.initial)
  = View.initial.
Proof.
  apply (proj2 (view_click_toggles View.initial 0%nat (or_introl eq_refl))).
  reflexivity.
Defined.

Lemma allKeys_not_empty (k : string) : In k allKeys -> k <> "".
Proof.
  unfold allKeys. simpl. intros Hk.
  repeat (destruct Hk as [<-|Hk]; [discriminate|]). done.
Qed.

Lemma model_key_at (store : Store) (i : Z) :
  (0 <= i < Z.of_nat (List.length (headers (buildElementTableModel store))))%Z
  ->
  exists key, keys (buildElementTableModel store) !! Z.to_nat i = Some key
              /\ key <> "".
Proof.
  intros Hi.
  assert (Hlen : List.length (headers (buildElementTableModel store))
                 = List.length (keys (buildElementTableModel store)))
    by (by apply filter_by_index_length).
  destruct (lookup_lt_is_Some_2 (keys (buildElementTableModel store))
              (Z.to_nat i)) as [key Hkey]; [lia|].
  exists key. split; [done|]. apply allKeys_not_empty.
  apply list_elem_of_lookup_2, list_elem_of_In in Hkey.
  rewrite model_keys in Hkey. by apply List.filter_In in Hkey as [Hkey _].
Qed.

(** X25. The rows that the table shows for a model built by
    [buildElementTableModel] are always sorted: after any sequence of
    clicks on its header cells and of inputs in the filter box, the rows
    drawn are the rows that match the current query, in the order of the
    column that the state points at. *)
Theorem view_rows_sorted :
  forall (localeCompare : string -> string -> Z) (store : Store)
         (events : list View.Event),
    consistent_collation localeCompare ->
    let m := buildElementTableModel store in
    clicks_within (List.length (headers m)) events ->
    let st := View.run events in
    exists key,
      keys m !! Z.to_nat (View.sortIndex st) = Some key
      /\ Permutation (View.visible_rows localeCompare m st)
           (filter_rows m (Some (View.currentQuery st)))
      /\ sorted_by localeCompare key (View.sortDirection st)
           (View.visible_rows localeCompare m st).
Proof.
  intros localeCompare store events Hlc m Hclicks st.
  assert (Hpos : 0 < List.length (headers m)).
  { assert (headers m !! 0 = Some "iri") as Hh by reflexivity.
    destruct (headers m); [done | simpl; lia]. }
  destruct (view_state_bounds (List.length (headers m)) events Hpos Hclicks)
    as [Hidx _]. fold st in Hidx.
  destruct (model_key_at store (View.sortIndex st) Hidx) as (key & Hkey & Hne).
  exists key. split; [done|]. unfold View.visible_rows.
  split; [apply filterAndSortRows_perm|].
  unfold filterAndSortRows.
  rewrite (sort_key_resolved m (View.sortIndex st) key) by done.
  by apply row_comparator_sorted.
Qed.

Lemma view_rows_sorted_witness :
  exists key,
    keys (buildElementTableModel example_store)
      !! Z.to_nat (View.sortIndex (View.run [View.Click (Some 1%nat)]))
    = Some key
    /\ Permutation
         (View.visible_rows code_unit_compare
            (buildElementTableModel example_store)
            (View.run [View.Click (Some 1%nat)]))
         (filter_rows (buildElementTableModel example_store)
            (Some (View.currentQuery (View.run [View.Click (Some 1%nat)]))))
    /\ sorted_by code_unit_compare key
         (View.sortDirection (View.run [View.Click (Some 1%nat)]))
         (View.visible_rows code_unit_compare
            (buildElementTableModel example_store)
            (View.run [View.Click (Some 1%nat)])).
Proof.
  apply (view_rows_sorted code_unit_compare example_store
           [View.Click (Some 1%nat)] code_unit_compare_consistent).
  intros i [[= <-]|[]]. vm_compute. lia.
Defined.

(** ** More on export file names *)

Lemma upper_char_alnum (c : ascii) :
  is_alnum c = true -> is_alnum (upper_char c) = true.
Proof. destruct c as [[] [] [] [] [] [] [] []]; by vm_compute. Qed.

Lemma upper_char_idempotent (c : ascii) :
  upper_char (upper_char c) = upper_char c.
Proof. destruct c as [[] [] [] [] [] [] [] []]; by vm_compute. Qed.

Lemma alnum_not_space (c : ascii) : is_alnum c = true -> is_space c = false.
Proof. destruct c as [[] [] [] [] [] [] [] []]; by vm_compute. Qed.

Lemma capitalize_alnum (p : string) :
  all_chars (fun c => is_alnum c = true) p ->
  all_chars (fun c => is_alnum c = true) (capitalize p).
Proof.
  destruct p as [|c p]; [done|]. simpl. intros [Hc Hp].
  split; [by apply upper_char_alnum | done].
Qed.

Lemma join_empty_cons (x : string) (xs : list string) :
  join "" (x :: xs) = x +:+ join "" xs.
Proof.
  unfold join. destruct xs as [|y xs]; simpl; [by rewrite append_empty_r|].
  done.
Qed.

Lemma join_empty_all_chars (P : ascii -> Prop) (xs : list string) :
  (forall x, In x xs -> all_chars P x) -> all_chars P (join "" xs).
Proof.
  induction xs as [|x xs IH]; intros Hall; [done|].
  rewrite join_empty_cons. apply all_chars_app. split.
  - apply Hall. by left.
  - apply IH. intros y Hy. apply Hall. by right.
Qed.

Lemma toPascalCase_alnum (name : option string) :
  all_chars (fun c => is_alnum c = true) (toPascalCase name).
Proof.
  destruct name as [s|]; [|by vm_compute]. unfold toPascalCase.
  destruct (negb (truthy s)); [by vm_compute|].
  destruct (List.length (pascal_parts s) =? 0)%nat; [by vm_compute|].
  apply join_empty_all_chars. intros p Hp.
  apply List.in_map_iff in Hp as (p0 & <- & Hp0).
  by apply capitalize_alnum, (pascal_parts_alnum s).
Qed.

(** X26. The base name that [toPascalCase] makes for the export file holds
    characters of [A-Za-z0-9] only, whatever the ontology is called. *)
Theorem toPascalCase_file_name_safe :
  forall name : option string,
    all_chars (fun c => is_alnum c = true) (toPascalCase name).
Proof. apply toPascalCase_alnum. Qed.

Lemma head_capitalized_app (a b : string) :
  head_capitalized a -> head_capitalized b -> head_capitalized (a +:+ b).
Proof. destruct a as [|c a]; [done|]. by rewrite append_cons. Qed.

Lemma head_capitalized_join (ps : list string) :
  head_capitalized (join "" (List.map capitalize ps)).
Proof.
  induction ps as [|p ps IH]; [done|].
  cbn [List.map]. rewrite join_empty_cons.
  apply head_capitalized_app; [|done].
  destruct p as [|c p]; [done|]. simpl. apply upper_char_idempotent.
Qed.

Lemma toPascalCase_head (name : option string) :
  head_capitalized (toPascalCase name).
Proof.
  destruct name as [s|]; [|by vm_compute]. unfold toPascalCase.
  destruct (negb (truthy s)); [by vm_compute|].
  destruct (List.length (pascal_parts s) =? 0)%nat; [by vm_compute|].
  apply head_capitalized_join.
Qed.

Lemma replace_alnum_id (in_run : bool) (s : string) :
  all_chars (fun c => is_alnum c = true) s ->
  replace_non_alnum_runs in_run s = s.
Proof.
  revert in_run. induction s as [|c s IH]; intros in_run; [done|].
  intros [Hc Hs]. simpl. rewrite Hc. by rewrite IH.
Qed.

Lemma trim_alnum_id (s : string) :
  all_chars (fun c => is_alnum c = true) s -> trim s = s.
Proof.
  intros Hs. unfold trim.
  assert (trimStart s = s) as ->.
  { destruct s as [|c s]; [done|]. destruct Hs as [Hc _]. simpl.
    by rewrite (alnum_not_space c Hc). }
  induction s as [|c s IH]; [done|]. destruct Hs as [Hc Hs]. simpl.
  rewrite (alnum_not_space c Hc). simpl. by rewrite IH.
Qed.

Lemma split_alnum_single (cur s : string) :
  all_chars (fun c => is_alnum c = true) s ->
  split_space_runs false cur s = [cur +:+ s].
Proof.
  revert cur. induction s as [|c s IH]; intros cur.
  - intros _. simpl. by rewrite append_empty_r.
  - intros [Hc Hs]. simpl. rewrite (alnum_not_space c Hc).
    rewrite IH by done. by rewrite append_assoc.
Qed.

(** X27. [toPascalCase] leaves its own results alone: applied to a
    non-empty name it has made, it returns that name. *)
Theorem toPascalCase_idempotent :
  forall name : option string,
    toPascalCase name <> "" ->
    toPascalCase (Some (toPascalCase name)) = toPascalCase name.
Proof.
  intros name Hne. set (r := toPascalCase name) in *.
  pose proof (toPascalCase_alnum name) as Halnum.
  pose proof (toPascalCase_head name) as Hhead. fold r in Halnum, Hhead.
  unfold toPascalCase at 1. unfold truthy.
  apply String.eqb_neq in Hne. rewrite Hne. simpl.
  unfold pascal_parts.
  rewrite (replace_alnum_id false r Halnum), (trim_alnum_id r Halnum),
    (split_alnum_single "" r Halnum).
  simpl. unfold join. simpl.
  destruct r as [|c r']; [done|]. simpl in *. by rewrite Hhead.
Qed.

Lemma toPascalCase_idempotent_witness :
  toPascalCase (Some (toPascalCase (Some "example-ontology_name.foo")))
  = toPascalCase (Some "example-ontology_name.foo").
Proof.
  apply (toPascalCase_idempotent (Some "example-ontology_name.foo")).
  by vm_compute.
Defined.

(** ** Compact IRIs *)

Lemma slice_from_app (ns local : string) :
  slice_from (String.length ns) (ns +:+ local) = local.
Proof.
  induction ns as [|c ns IH]; [by destruct local|].
  rewrite append_cons. exact IH.
Qed.

Lemma curie_loop_hit (pre post : list (string * string))
  (ns prefix local : string) :
  (forall ns' prefix', In (ns', prefix') pre ->
     String.prefix ns' (ns +:+ local) = false) ->
  curie_loop (pre ++ (ns, prefix) :: post) (ns +:+ local)
  = prefix +:+ ":" +:+ local.
Proof.
  induction pre as [|[ns' prefix'] pre IH]; intros Hpre.
  - cbn [List.app curie_loop].
    assert (String.prefix ns (ns +:+ local) = true) as ->
      by (apply prefix_iff; by exists local).
    by rewrite slice_from_app.
  - cbn [List.app curie_loop].
    rewrite (Hpre ns' prefix' (or_introl eq_refl)). apply IH.
    intros ns'' prefix'' Hin. eapply Hpre. by right.
Qed.

Lemma curie_loop_miss (entries : list (string * string)) (iri : string) :
  (forall ns prefix, In (ns, prefix) entries -> String.prefix ns iri = false)
  -> curie_loop entries iri = iri.
Proof.
  induction entries as [|[ns prefix] entries IH]; intros Hmiss; [done|].
  cbn [curie_loop]. rewrite (Hmiss ns prefix (or_introl eq_refl)).
  apply IH. intros ns' prefix' Hin. eapply Hmiss. by right.
Qed.

(** X28. An IRI in one of the six common namespaces is shortened to the
    prefix of that namespace, a colon and the rest of the IRI, whichever
    namespace it is: no namespace of the table hides another.  An IRI
    outside the six namespaces is returned as it is. *)
Theorem iriToCurieIfCommon_spec :
  (forall ns prefix local : string,
     In (ns, prefix) COMMON_PREFIXES ->
     iriToCurieIfCommon (ns +:+ local) = prefix +:+ ":" +:+ local)
  /\ (forall iri : string,
        (forall ns prefix, In (ns, prefix) COMMON_PREFIXES ->
                           String.prefix ns iri = false) ->
        iriToCurieIfCommon iri = iri).
Proof.
  split; [|intros iri; apply curie_loop_miss].
  intros ns prefix local Hin. unfold iriToCurieIfCommon.
  unfold COMMON_PREFIXES in *. simpl in Hin.
  destruct Hin as [[= <- <-]|[[= <- <-]|[[= <- <-]|[[= <- <-]|[[= <- <-]|
                  [[= <- <-]|[]]]]]]].
  - apply (curie_loop_hit [] _ NS.rdf "rdf" local). by intros ns' p' [].
  - apply (curie_loop_hit [(NS.rdf, "rdf")] _ NS.rdfs "rdfs" local).
    intros ns' p' Hin. simpl in Hin.
    repeat (destruct Hin as [[= <- <-]|Hin]; [by vm_compute|]). done.
  - apply (curie_loop_hit [(NS.rdf, "rdf"); (NS.rdfs, "rdfs")] _
             NS.owl "owl" local).
    intros ns' p' Hin. simpl in Hin.
    repeat (destruct Hin as [[= <- <-]|Hin]; [by vm_compute|]). done.
  - apply (curie_loop_hit
             [(NS.rdf, "rdf"); (NS.rdfs, "rdfs"); (NS.owl, "owl")] _
             NS.dc "dc" local).
    intros ns' p' Hin. simpl in Hin.
    repeat (destruct Hin as [[= <- <-]|Hin]; [by vm_compute|]). done.
  - apply (curie_loop_hit
             [(NS.rdf, "rdf"); (NS.rdfs, "rdfs"); (NS.owl, "owl");
              (NS.dc, "dc")] _ NS.dcterms "dcterms" local).
    intros ns' p' Hin. simpl in Hin.
    repeat (destruct Hin as [[= <- <-]|Hin]; [by vm_compute|]). done.
  - apply (curie_loop_hit
             [(NS.rdf, "rdf"); (NS.rdfs, "rdfs"); (NS.owl, "owl");
              (NS.dc, "dc"); (NS.dcterms, "dcterms")] _
             NS.skos "skos" local).
    intros ns' p' Hin. simpl in Hin.
    repeat (destruct Hin as [[= <- <-]|Hin]; [by vm_compute|]). done.
Qed.

Lemma iriToCurieIfCommon_spec_witness :
  iriToCurieIfCommon (NS.dcterms +:+ "title") = "dcterms" +:+ ":" +:+ "title"
  /\ iriToCurieIfCommon "http://example.org/ClassA"
     = "http://example.org/ClassA".
Proof.
  split.
  - apply (proj1 iriToCurieIfCommon_spec NS.dcterms "dcterms" "title").
    right. right. right. right. left. reflexivity.
  - apply (proj2 iriToCurieIfCommon_spec).
    intros ns prefix Hin. unfold COMMON_PREFIXES in Hin. simpl in Hin.
    repeat (destruct Hin as [[= <- <-]|Hin]; [reflexivity|]). done.
Defined.

(** ** More on the literal selector *)

(** X29. What [pickBestLiteral] picks is one of the literals it was given,
    and its kind does not depend on their order: it carries the tag "en"
    whenever one of them does, and otherwise carries no tag whenever one of
    them carries none. *)
Theorem pickBestLiteral_kind :
  forall (literals : list Term) (best : Term),
    pickBestLiteral literals = Some best ->
    In best literals
    /\ ((exists l, In l literals /\ tagged_en l) -> tagged_en best)
    /\ ((forall l, In l literals -> ~ tagged_en l) ->
        (exists l, In l literals /\ untagged l) -> untagged best).
Proof.
  intros literals best. destruct literals as [|first rest]; [done|].
  unfold pickBestLiteral.
  rewrite (find_filter_implied _ _ _ tagged_en_truthy).
  destruct (List.find _ (first :: rest)) as [en|] eqn:Hen.
  - intros [= <-]. apply List.find_some in Hen as [Hin Hen].
    apply String.eqb_eq in Hen. split; [done|]. split; [done|].
    intros Hnone _. by destruct (Hnone en Hin).
  - pose proof (proj1 (find_none_iff _ _) Hen) as Hno_en.
    assert (Hno : ~ exists l, In l (first :: rest) /\ tagged_en l).
    { intros (l & Hl & Htag). specialize (Hno_en l Hl).
      apply String.eqb_neq in Hno_en. by apply Hno_en. }
    destruct (List.find (fun l => negb (truthy (language l)))
                (first :: rest)) as [noLang|] eqn:Hlang.
    + intros [= <-]. apply List.find_some in Hlang as [Hin Hlang].
      unfold truthy in Hlang. rewrite negb_involutive in Hlang.
      apply String.eqb_eq in Hlang. split; [done|]. split; [|done].
      intros Hex. by destruct Hno.
    + intros [= <-]. split; [by left|]. split.
      * intros Hex. by destruct Hno.
      * intros _ (l & Hl & Hun).
        pose proof (proj1 (find_none_iff _ _) Hlang l Hl) as Hl'.
        unfold truthy in Hl'. rewrite negb_involutive in Hl'.
        apply String.eqb_neq in Hl'. by destruct Hl'.
Qed.

Lemma pickBestLiteral_kind_witness :
  In (literal "English" "EN")
    [literal "Plain" ""; literal "French" "fr"; literal "English" "EN"]
  /\ tagged_en (literal "English" "EN").
Proof.
  destruct (pickBestLiteral_kind
              [literal "Plain" ""; literal "French" "fr";
               literal "English" "EN"]
              (literal "English" "EN") eq_refl) as (Hin & Hen & _).
  split; [exact Hin|]. apply Hen.
  exists (literal "English" "EN"). split; [|reflexivity].
  right. right. left. reflexivity.
Defined.
